(** * 3D jump-route planner (tsp_3d_plot.py): cost model, greedy
      construction, 2-opt refinement and the planner [solve].

    The route engine of the script is embedded function by function:
    [System.distance_to], [System.jumps_to], [total_cost],
    [nearest_neighbor], [two_opt] and [solve].  Around it,
    [System.__init__] and [load_systems] are embedded on the rows the CSV
    reader yields, and [print_route] and [save_csv] on the values they put
    out (the fields of each line and row, before formatting).  The
    console dialogue ([get_user_input], [main]), the configuration file
    ([load_config], [save_config]) and the plot ([plot_3d_route]) are
    input and output only and are left out.

    Modelling choices.
    - Python floats.  The code only adds, subtracts, divides and compares
      floats, takes [math.hypot] and [math.ceil].  These operations are
      the fields of the class [FloatOps]; the general theorems are proved
      for every implementation whose [<] is a strict order (class
      [FloatOrder]: irreflexive and transitive, which holds for IEEE
      doubles, NaN included).  The instance [Qops] (exact rationals) is
      used to run the code on concrete inputs; the concrete inputs of
      this file lie on one axis with small integer coordinates (and one
      coordinate [1e-6]), where the distances and their sums are exact in
      binary64 and the ceilings of the quotients are the same.
    - Object identity.  [System] defines no [__eq__], so [==], [!=], [in],
      [list.remove] and set membership compare references.  A route is a
      list of references ([ref]); the objects live in a store [heap].
    - [set] iteration order.  [min] walks the set [unvisited] in hash
      order; the order is the parameter [set_iter], and removing an
      element leaves the order of the others as it is.
    - [while improved] in [two_opt] has no syntactic bound.  A search gets
      [S (fact n)] passes; [None] stands for a search that is still
      running after that.  [two_opt_total] shows it never happens.
    - Division by [max_range = 0.0] raises in Python; the script asks for
      a positive range, and the model covers the runs that do not raise. *)

From Stdlib Require Import ZArith QArith Qround String Ascii Lia Factorial.
From stdpp Require Import base option list.

Local Open Scope Z_scope.

(** ** Float operations used by the script *)

Class FloatOps (F : Type) := {
  f_zero : F;                 (* the accumulators' initial [0] and the literal [0.0] *)
  f_eps : F;                  (* the literal [1e-6] *)
  f_add : F → F → F;
  f_sub : F → F → F;
  f_div : F → F → F;
  f_lt : F → F → bool;
  f_ceil : F → Z;             (* [math.ceil] *)
  f_hypot : F → F → F → F     (* [math.hypot] on three arguments *)
}.

Class FloatOrder (F : Type) `{FloatOps F} : Prop := {
  f_lt_irrefl : ∀ a : F, f_lt a a = false;
  f_lt_trans : ∀ a b c : F, f_lt a b = true → f_lt b c = true → f_lt a c = true
}.

(** References to [System] objects. *)
Definition ref := nat.

(** Python slice [l[i:j]] for indices [0 <= i], [0 <= j]. *)
Definition slice {A} (l : list A) (i j : nat) : list A := take (j - i) (drop i l).

(** [range(a, b)] on naturals (empty when [b <= a]). *)
Definition range (a b : nat) : list nat := seq a (b - a).

(** [list.remove(x)]: drops the first occurrence. *)
Fixpoint remove_first (x : ref) (l : list ref) : list ref :=
  match l with
  | [] => []
  | y :: l' => if decide (y = x) then l' else y :: remove_first x l'
  end.

(** [min(iterable, key=...)] continued from a current candidate: a later
    element wins only with a strictly smaller key. *)
Fixpoint min_by (key : ref → Z) (m : ref) (l : list ref) : ref :=
  match l with
  | [] => m
  | s :: l' => if key s <? key m then min_by key s l' else min_by key m l'
  end.

Section Planner.
Context {F : Type} {ops : FloatOps F}.

(** class System *)
Record System := { name : string; x : F; y : F; z : F }.

Definition distance_to (self other : System) : F :=
  f_hypot (f_sub (x self) (x other)) (f_sub (y self) (y other))
          (f_sub (z self) (z other)).

Definition jumps_to (self other : System) (max_range : F) : Z :=
  let d := distance_to self other in
  if f_lt f_eps d then Z.max 1 (f_ceil (f_div d max_range)) else 0.

(** The objects behind the references, and the iteration order of a
    set given by its elements. *)
Variable heap : ref → System.
Variable set_iter : list ref → list ref.

(** *** total_cost *)

(** The four accumulators [tj, jumps, tly, dists]. *)
Definition cost : Type := Z * list Z * F * list F.

(** One leg [a -> b] added to the accumulators (the body shared by the
    [for] loop and the [if loop] branch). *)
Definition add_leg (rng : F) (acc : cost) (ab : ref * ref) : cost :=
  let '(tj, jumps, tly, dists) := acc in
  let d := distance_to (heap ab.1) (heap ab.2) in
  let j := jumps_to (heap ab.1) (heap ab.2) rng in
  (tj + j, jumps ++ [j], f_add tly d, dists ++ [d]).

Definition total_cost (path : list ref) (rng : F) (loop : bool) : cost :=
  if (length path <? 2)%nat then (0, [], f_zero, [])
  else
    let acc := fold_left (add_leg rng)
                 (zip (take (length path - 1) path) (drop 1 path))
                 (0, [], f_zero, []) in
    match loop, last path, head path with
    | true, Some pl, Some p0 => add_leg rng acc (pl, p0)
    | _, _, _ => acc
    end.

(** *** nearest_neighbor *)

(** [while unvisited: ...]; every turn removes [nxt] from the set, so
    [length unvisited] turns are enough. *)
Fixpoint nn_loop (turns : nat) (unvisited path : list ref) (cur : ref)
    (rng : F) : list ref :=
  match turns, unvisited with
  | S turns', s :: rest =>
      let nxt := min_by (λ t, jumps_to (heap cur) (heap t) rng) s rest in
      nn_loop turns' (filter (λ t, t ≠ nxt) unvisited) (path ++ [nxt]) nxt rng
  | _, _ => path
  end.

Definition nearest_neighbor (systems : list ref) (start : ref)
    (fixed_end : option ref) (rng : F) : list ref :=
  let unvisited := set_iter (filter (λ s, s ≠ start) (remove_dups systems)) in
  let path := nn_loop (length unvisited) unvisited [start] start rng in
  match fixed_end with
  | Some fe =>
      if decide (last path ≠ Some fe) then remove_first fe path ++ [fe]
      else path
  | None => path
  end.

(** *** two_opt *)

(** The variables of the search: [best], [best_j], [best_ly], [improved]. *)
Record search := Search {
  best : list ref; best_j : Z; best_ly : F; improved : bool }.

(** [best[:i] + best[i:k+1][::-1] + best[k+1:]] *)
Definition reversal (p : list ref) (i k : nat) : list ref :=
  take i p ++ reverse (slice p i (k + 1)) ++ drop (k + 1) p.

(** [nj < best_j or (nj == best_j and nly < best_ly)] *)
Definition improves (nj : Z) (nly : F) (bj : Z) (bly : F) : bool :=
  (nj <? bj) || ((nj =? bj) && f_lt nly bly).

(** The guard of [continue]: [loop and (i == 1 or k == n-1)] *)
Definition skipped (loop : bool) (n i k : nat) : bool :=
  loop && (Nat.eqb i 1 || Nat.eqb k (n - 1)).

(** Body of [for k in range(i+1, n)]. *)
Definition k_body (rng : F) (loop : bool) (n i : nat) (st : search) (k : nat)
    : search :=
  if skipped loop n i k then st
  else
    let new := reversal (best st) i k in
    let '(nj, _, nly, _) := total_cost new rng loop in
    if improves nj nly (best_j st) (best_ly st)
    then Search new nj nly true
    else st.

Definition k_loop (rng : F) (loop : bool) (n i : nat) (st : search) : search :=
  fold_left (k_body rng loop n i) (range (i + 1) n) st.

(** [for i in range(1, n-2): <k loop>; if improved: break] *)
Fixpoint i_loop (rng : F) (loop : bool) (n : nat) (rows : list nat)
    (st : search) : search :=
  match rows with
  | [] => st
  | i :: rows' =>
      let st' := k_loop rng loop n i st in
      if improved st' then st' else i_loop rng loop n rows' st'
  end.

(** One turn of [while improved]: the flag is cleared, then the [i] loop runs. *)
Definition pass (rng : F) (loop : bool) (n : nat) (st : search) : search :=
  i_loop rng loop n (range 1 (n - 2))
    (Search (best st) (best_j st) (best_ly st) false).

Fixpoint while_improved (passes : nat) (rng : F) (loop : bool) (n : nat)
    (st : search) : option search :=
  match passes with
  | O => None
  | S passes' =>
      let st' := pass rng loop n st in
      if improved st' then while_improved passes' rng loop n st'
      else Some st'
  end.

(** What [two_opt] and [solve] return: [path, jumps, tj, tly, dists]. *)
Definition result : Type := list ref * list Z * Z * F * list F.

Definition two_opt (path : list ref) (rng : F) (loop : bool) : option result :=
  let '(bj, _, bly, _) := total_cost path rng loop in
  let n := length path in
  st ← while_improved (S (fact n)) rng loop n (Search path bj bly true);
  let '(j, jumps, ly, dists) := total_cost (best st) rng loop in
  Some (best st, jumps, j, ly, dists).

(** *** solve *)

Definition solve (systems : list ref) (max_jump : F)
    (loop_back final_is_last : bool) : option result :=
  if (length systems <? 2)%nat then Some (systems, [], 0, f_zero, [])
  else
    match head systems, last systems with
    | Some start, Some sl =>
        let fixed_end :=
          if negb loop_back && final_is_last then Some sl else None in
        let pool := filter (λ s, Some s ≠ fixed_end) systems in
        let path := nearest_neighbor pool start fixed_end max_jump in
        '(path, jumps, tj, tly, dists) ← two_opt path max_jump loop_back;
        match head path, last path with
        | Some p0, Some pl =>
            if loop_back && bool_decide (p0 ≠ pl) then
              let d := distance_to (heap pl) (heap p0) in
              let j := jumps_to (heap pl) (heap p0) max_jump in
              Some (path ++ [p0], jumps ++ [j], tj, tly, dists ++ [d])
            else Some (path, jumps, tj, tly, dists)
        | _, _ => Some (path, jumps, tj, tly, dists)
        end
    | _, _ => None
    end.

(** *** Notions used in the statements *)

(** The last two lines of [two_opt]: a route returned with its costs. *)
Definition with_costs (rng : F) (loop : bool) (p : list ref) : result :=
  let '(j, jumps, ly, dists) := total_cost p rng loop in
  (p, jumps, j, ly, dists).

Definition res_path (r : result) : list ref := r.1.1.1.1.
Definition res_jumps (r : result) : list Z := r.1.1.1.2.
Definition res_tj (r : result) : Z := r.1.1.2.
Definition res_tly (r : result) : F := r.1.2.
Definition res_dists (r : result) : list F := r.2.

(** Total hops and total distance of a route, as [total_cost] has them. *)
Definition route_hops (rng : F) (loop : bool) (p : list ref) : Z :=
  (total_cost p rng loop).1.1.1.
Definition route_dist (rng : F) (loop : bool) (p : list ref) : F :=
  (total_cost p rng loop).1.2.

(** Per-leg hop list and per-leg distance list of a route. *)
Definition leg_hops (rng : F) (loop : bool) (p : list ref) : list Z :=
  (total_cost p rng loop).1.1.2.
Definition leg_dists (rng : F) (loop : bool) (p : list ref) : list F :=
  (total_cost p rng loop).2.

(** Route [p] beats route [q] in the acceptance test of [two_opt]. *)
Definition better (rng : F) (loop : bool) (p q : list ref) : bool :=
  improves (route_hops rng loop p) (route_dist rng loop p)
           (route_hops rng loop q) (route_dist rng loop q).

(** The cached [best_j], [best_ly] are the cost of [best]. *)
Definition cached (rng : F) (loop : bool) (st : search) : Prop :=
  best_j st = route_hops rng loop (best st) ∧
  best_ly st = route_dist rng loop (best st).

(** A search state reached from the route [path0]. *)
Definition reached (rng : F) (loop : bool) (path0 : list ref) (st : search)
    : Prop :=
  best st ≡ₚ path0 ∧ head (best st) = head path0 ∧ cached rng loop st.

(** No move of a pass improves the route [p]. *)
Definition quiet (rng : F) (loop : bool) (p : list ref) : Prop :=
  ∀ i k : nat, i ∈ range 1 (length p - 2) → k ∈ range (i + 1) (length p) →
    skipped loop (length p) i k = false →
    better rng loop (reversal p i k) p = false.

(** Number of orderings of [path0] that beat [p]: it bounds the passes
    still to come. *)
Definition rank (rng : F) (loop : bool) (path0 p : list ref) : nat :=
  length (List.filter (λ q, better rng loop q p) (permutations path0)).

(** *** The search policy in the words of the specification:
        first improvement, then restart *)

(** The moves of one pass, in the order of the two loops. *)
Definition moves (loop : bool) (n : nat) : list (nat * nat) :=
  i ← range 1 (n - 2);
  k ← range (i + 1) n;
  if skipped loop n i k then [] else [(i, k)].

Definition first_improvement_pass (rng : F) (loop : bool) (p : list ref)
    : option (list ref) :=
  (λ ik : nat * nat, reversal p ik.1 ik.2) <$>
    List.find (λ ik, better rng loop (reversal p ik.1 ik.2) p)
              (moves loop (length p)).

Fixpoint first_improvement_search (passes : nat) (rng : F) (loop : bool)
    (p : list ref) : option (list ref) :=
  match passes with
  | O => None
  | S passes' =>
      match first_improvement_pass rng loop p with
      | Some p' => first_improvement_search passes' rng loop p'
      | None => Some p
      end
  end.

Definition two_opt_first_improvement (path : list ref) (rng : F) (loop : bool)
    : option result :=
  p ← first_improvement_search (S (fact (length path))) rng loop path;
  let '(j, jumps, ly, dists) := total_cost p rng loop in
  Some (p, jumps, j, ly, dists).

(** *** The search policy of the code, route by route: the first row
        with an improving move is swept to its end, then restart *)

Definition row_step (rng : F) (loop : bool) (n i : nat) (p : list ref)
    (k : nat) : list ref :=
  if skipped loop n i k then p
  else if better rng loop (reversal p i k) p then reversal p i k else p.

Definition row_sweep (rng : F) (loop : bool) (n i : nat) (p : list ref)
    : list ref :=
  fold_left (row_step rng loop n i) (range (i + 1) n) p.

Definition row_improving (rng : F) (loop : bool) (n : nat) (p : list ref)
    (i : nat) : bool :=
  existsb (λ k, negb (skipped loop n i k) && better rng loop (reversal p i k) p)
          (range (i + 1) n).

Definition row_sweep_pass (rng : F) (loop : bool) (n : nat) (p : list ref)
    : option (list ref) :=
  (λ i, row_sweep rng loop n i p) <$>
    List.find (row_improving rng loop n p) (range 1 (n - 2)).

Fixpoint row_sweep_search (passes : nat) (rng : F) (loop : bool) (n : nat)
    (p : list ref) : option (list ref) :=
  match passes with
  | O => None
  | S passes' =>
      match row_sweep_pass rng loop n p with
      | Some p' => row_sweep_search passes' rng loop n p'
      | None => Some p
      end
  end.

Definition two_opt_row_sweep (path : list ref) (rng : F) (loop : bool)
    : option result :=
  p ← row_sweep_search (S (fact (length path))) rng loop (length path) path;
  let '(j, jumps, ly, dists) := total_cost p rng loop in
  Some (p, jumps, j, ly, dists).

End Planner.

Arguments System F : clear implicits.
Arguments search F : clear implicits.
Arguments cost F : clear implicits.
Arguments result F : clear implicits.

(** ** Exact rational arithmetic as an instance of the float operations *)

(** Square root of [n/d], rounded down to a multiple of [1/(d * 2^32)];
    exact when [n * d] is a square. *)
Definition Qsqrt (q : Q) : Q :=
  Qred (Z.sqrt (Qnum q * Zpos (Qden q) * 4 ^ 32) # (Qden q * 2 ^ 32)).

Definition Qltb (a b : Q) : bool :=
  match Qcompare a b with Lt => true | _ => false end.

#[export] Instance Qops : FloatOps Q := {|
  f_zero := 0%Q;
  f_eps := (1 # 1000000)%Q;
  f_add := Qplus;
  f_sub := Qminus;
  f_div := Qdiv;
  f_lt := Qltb;
  f_ceil := Qceiling;
  f_hypot := λ a b c, Qsqrt (a * a + b * b + c * c)%Q
|}.

(** A store holding the listed objects at references [0, 1, 2, ...]. *)
Definition store (objs : list (System Q)) : ref → System Q :=
  λ r, nth r objs {| name := EmptyString; x := 0%Q; y := 0%Q; z := 0%Q |}.

Definition on_x (nm : string) (c : Z) : System Q :=
  {| name := nm; x := inject_Z c; y := 0%Q; z := 0%Q |}.

Definition at_x (nm : string) (c : Q) : System Q :=
  {| name := nm; x := c; y := 0%Q; z := 0%Q |}.

(** A set iterated in the order of the list of its elements. *)
Definition insertion_order : list ref → list ref := id.

(** The example of the specification: A(0,0,0), B(10,0,0), C(20,0,0). *)
Definition line3 : ref → System Q :=
  store [on_x "A" 0; on_x "B" 10; on_x "C" 20].

(** Four systems in file order A, B, C, D with D between A and B. *)
Definition line4 : ref → System Q :=
  store [on_x "A" 0; on_x "B" 2; on_x "C" 3; on_x "D" 1].

(** Five systems on a line, in file order A, B, C, D, E. *)
Definition line5 : ref → System Q :=
  store [on_x "A" 2; on_x "B" 1; on_x "C" 4; on_x "D" 5; on_x "E" 0].

(** Two systems exactly [1e-6] apart. *)
Definition origin : System Q := on_x "O" 0.
Definition nearby : System Q := at_x "P" (1 # 1000000).

(** [round(v, 3)] on exact rationals: the nearest multiple of [1/1000],
    a tie going to the even one. *)
Definition Qround3 (q : Q) : Q :=
  let t := (q * 1000)%Q in
  let f := Qfloor t in
  let up :=
    match Qcompare (t - inject_Z f) (1 # 2) with
    | Lt => false
    | Gt => true
    | Eq => Z.odd f
    end in
  Qred ((if up then f + 1 else f) # 1000).

(** ** System construction, [load_systems] *)

(** The double quote character. *)
Definition dquote : ascii := "034"%char.

(** [str.lstrip(c)], [str.rstrip(c)] and [str.strip(c)] for a one-character
    set [c], on the UTF-8 bytes of the string. *)
Fixpoint lstrip (c : ascii) (s : string) : string :=
  match s with
  | EmptyString => EmptyString
  | String a s' => if Ascii.eqb a c then lstrip c s' else s
  end.

Fixpoint rstrip (c : ascii) (s : string) : string :=
  match s with
  | EmptyString => EmptyString
  | String a s' =>
      match rstrip c s' with
      | EmptyString => if Ascii.eqb a c then EmptyString else String a EmptyString
      | t => String a t
      end
  end.

Definition strip (c : ascii) (s : string) : string := rstrip c (lstrip c s).

(** First and last character of a string. *)
Definition first_char (s : string) : option ascii :=
  match s with EmptyString => None | String a _ => Some a end.

Fixpoint last_char (s : string) : option ascii :=
  match s with
  | EmptyString => None
  | String a EmptyString => Some a
  | String _ s' => last_char s'
  end.

Section Loading.
Context {F : Type}.

(** [float(s)]; [None] stands for [ValueError]. *)
Variable parse_float : string → option F.

(** [System.__init__] *)
Definition new_System (nm : string) (cx cy cz : F) : System F :=
  {| name := strip dquote nm; x := cx; y := cy; z := cz |}.

(** The body of [for row in csv.reader(f)]: the system the row adds, if any. *)
Definition load_row (row : list string) : option (System F) :=
  if (4 <=? length row)%nat then
    match row with
    | nm :: sx :: sy :: sz :: _ =>
        cx ← parse_float sx; cy ← parse_float sy; cz ← parse_float sz;
        Some (new_System nm cx cy cz)
    | _ => None
    end
  else None.

(** [load_systems], on what the file system answers: [None] when the path
    does not exist, otherwise the rows [csv.reader] yields. *)
Definition load_systems (file : option (list (list string)))
    : list (System F) :=
  match file with
  | None => []
  | Some rows => omap load_row rows
  end.
End Loading.

(** ** [print_route] and [save_csv]: the values they put out *)

(** [enumerate(l, 1)] *)
Definition enumerate1 {A} (l : list A) : list (nat * A) :=
  zip (seq 1 (length l)) l.

(** The text after the distance on a line of [print_route]. *)
Inductive marker := START | END_LOOP | NO_MARKER.

Section Reporting.
Context {F : Type} {ops : FloatOps F}.
Variable heap : ref → System F.

(** [round(v, 3)] *)
Variable round3 : F → F.

(** The fields of one line of the route table, before formatting:
    [i], [s.name], [j], [cum], [marker]. *)
Record route_line := {
  line_no : nat; line_name : string; line_jumps : Z; line_cum : F;
  line_marker : marker }.

(** Body of the loop of [print_route]; the accumulator is [cum] and the
    lines printed so far. *)
Definition print_line (path : list ref) (acc : F * list route_line)
    (e : nat * (ref * Z)) : F * list route_line :=
  let '(cum, out) := acc in
  let '(i, (s, j)) := e in
  let cum :=
    if (1 <? i)%nat then
      match path !! (i - 2)%nat, path !! (i - 1)%nat with
      | Some a, Some b => f_add cum (distance_to (heap a) (heap b))
      | _, _ => cum
      end
    else cum in
  let mk :=
    if (i =? 1)%nat then START
    else if (i =? length path)%nat then END_LOOP else NO_MARKER in
  (cum, out ++ [{| line_no := i; line_name := name (heap s); line_jumps := j;
                   line_cum := cum; line_marker := mk |}]).

(** [print_route]: the lines of the table, and the three values of the
    summary line (systems visited, total jumps, total distance). *)
Definition print_route (path : list ref) (jumps : list Z) (total_jumps : Z)
    (total_ly : F) : list route_line * (nat * Z * F) :=
  let lines :=
    (fold_left (print_line path) (enumerate1 (zip path jumps)) (f_zero, [])).2 in
  let closed :=
    match head path, last path with
    | Some p0, Some pl => if decide (p0 = pl) then 1%nat else 0%nat
    | _, _ => 0%nat
    end in
  (lines, ((length path - closed)%nat, total_jumps, total_ly)).

(** One data row of [route_output.csv]:
    [Step, System, Jumps, Leg_LY, Total_Jumps, Total_LY, X, Y, Z]. *)
Record csv_row := {
  csv_step : nat; csv_system : string; csv_jumps : Z; csv_leg_ly : F;
  csv_total_jumps : Z; csv_total_ly : F; csv_x : F; csv_y : F; csv_z : F }.

(** Body of the loop of [save_csv]; the accumulator is [tj], [tly] and the
    rows written so far. *)
Definition csv_line (acc : Z * F * list csv_row) (e : nat * (ref * (Z * F)))
    : Z * F * list csv_row :=
  let '(tj, tly, out) := acc in
  let '(i, (s, (j, d))) := e in
  let tj := tj + j in
  let tly := f_add tly d in
  (tj, tly,
   out ++ [{| csv_step := i; csv_system := name (heap s); csv_jumps := j;
              csv_leg_ly := round3 d; csv_total_jumps := tj;
              csv_total_ly := round3 tly;
              csv_x := x (heap s); csv_y := y (heap s); csv_z := z (heap s) |}]).

(** [save_csv]: the data rows written after the header row. *)
Definition save_csv (path : list ref) (jumps : list Z) (dists : list F)
    (total_jumps : Z) (total_ly : F) : list csv_row :=
  (fold_left csv_line (enumerate1 (zip path (zip jumps dists)))
     (0, f_zero, [])).2.

End Reporting.

Section GreedyRoutes.
Context {F : Type} {ops : FloatOps F}.
Variable heap : ref → System F.

(** A route in which every system is followed by one with the fewest hops
    from it among all the systems after it. *)
Fixpoint greedy_chain (rng : F) (cur : ref) (l : list ref) : Prop :=
  match l with
  | [] => True
  | nxt :: l' =>
      (∀ s, s ∈ l' →
         jumps_to (heap cur) (heap nxt) rng ≤ jumps_to (heap cur) (heap s) rng) ∧
      greedy_chain rng nxt l'
  end.
End GreedyRoutes.

Arguments route_line F : clear implicits.
Arguments csv_row F : clear implicits.

(** * Properties *)

(** ** Lists: slices, reversals, permutations *)

Lemma reversal_perm (p : list ref) (i k : nat) :
  (i ≤ k + 1)%nat → reversal p i k ≡ₚ p.
Proof.
  intros Hik. unfold reversal, slice.
  rewrite reverse_Permutation.
  replace (drop (k + 1) p) with (drop (k + 1 - i) (drop i p)).
  - rewrite take_drop, take_drop. reflexivity.
  - rewrite drop_drop. f_equal. lia.
Qed.

Lemma reversal_head (p : list ref) (i k : nat) :
  (1 ≤ i)%nat → head (reversal p i k) = head p.
Proof.
  intros Hi. unfold reversal. destruct i as [|i]; [lia|].
  destruct p as [|a p]; [|reflexivity].
  unfold slice. rewrite !drop_nil, !take_nil. reflexivity.
Qed.

Lemma interleave_length {A} (a : A) (l : list A) :
  length (interleave a l) = S (length l).
Proof.
  induction l as [|b l IH]; [reflexivity|].
  cbn [interleave length]. rewrite length_fmap, IH. reflexivity.
Qed.

Lemma bind_length_const {A B} (f : A → list B) (c : nat) (ps : list A) :
  (∀ p, p ∈ ps → length (f p) = c) →
  length (ps ≫= f) = (length ps * c)%nat.
Proof.
  induction ps as [|p ps IH]; intros Hc; [reflexivity|].
  rewrite bind_cons, length_app, IH, (Hc p).
  - cbn [length]. lia.
  - left.
  - intros q Hq. apply Hc. right. exact Hq.
Qed.

Lemma permutations_length {A} (l : list A) :
  length (permutations l) = fact (length l).
Proof.
  induction l as [|a l IH]; [reflexivity|].
  cbn [permutations length fact].
  rewrite (bind_length_const _ (S (length l))).
  - rewrite IH. lia.
  - intros p Hp. apply permutations_Permutation in Hp.
    rewrite interleave_length, <- (Permutation_length Hp). reflexivity.
Qed.

(** A filter that keeps less, and drops an element the other keeps, is
    strictly shorter. *)
Lemma filter_length_lt {A} (P Q : A → bool) (l : list A) (a : A) :
  (∀ b, P b = true → Q b = true) →
  a ∈ l → Q a = true → P a = false →
  (length (List.filter P l) < length (List.filter Q l))%nat.
Proof.
  intros HPQ Hin HQ HP.
  assert (Hle : ∀ l', (length (List.filter P l') ≤ length (List.filter Q l'))%nat).
  { induction l' as [|b l' IH]; [reflexivity|]. cbn [List.filter].
    destruct (P b) eqn:E.
    - rewrite (HPQ b E). cbn [length]. lia.
    - destruct (Q b); cbn [length]; lia. }
  induction l as [|b l IH]; [inversion Hin|].
  cbn [List.filter]. apply elem_of_cons in Hin as [<-|Hin].
  - rewrite HP, HQ. cbn [length]. specialize (Hle l). lia.
  - specialize (IH Hin). destruct (P b) eqn:E.
    + rewrite (HPQ b E). cbn [length]. lia.
    + destruct (Q b); cbn [length]; lia.
Qed.

(** ** The acceptance test is a strict order on costs *)

Section Acceptance.
Context {F : Type} {ops : FloatOps F} {ord : FloatOrder F}.

Lemma improves_irrefl (j : Z) (l : F) : improves j l j l = false.
Proof.
  unfold improves. rewrite Z.ltb_irrefl, f_lt_irrefl, andb_false_r.
  reflexivity.
Qed.

Lemma improves_trans (j1 j2 j3 : Z) (l1 l2 l3 : F) :
  improves j1 l1 j2 l2 = true → improves j2 l2 j3 l3 = true →
  improves j1 l1 j3 l3 = true.
Proof.
  unfold improves. intros H12 H23.
  apply orb_true_iff in H12 as [H12|H12], H23 as [H23|H23];
    apply orb_true_iff.
  - left. apply Z.ltb_lt in H12, H23. apply Z.ltb_lt. lia.
  - apply andb_true_iff in H23 as [E _]. apply Z.eqb_eq in E. subst j3.
    left. exact H12.
  - apply andb_true_iff in H12 as [E _]. apply Z.eqb_eq in E. subst j2.
    left. exact H23.
  - apply andb_true_iff in H12 as [E12 L12], H23 as [E23 L23].
    apply Z.eqb_eq in E12, E23. subst j2 j3. right.
    rewrite Z.eqb_refl. exact (f_lt_trans _ _ _ L12 L23).
Qed.

Lemma f_lt_asym (a b : F) : f_lt a b = true → f_lt b a = false.
Proof.
  intros Hab. destruct (f_lt b a) eqn:Hba; [|reflexivity].
  rewrite <- (f_lt_irrefl a). symmetry. exact (f_lt_trans _ _ _ Hab Hba).
Qed.
End Acceptance.

(** ** Invariants of the 2-opt search *)

Section Search.
Context {F : Type} {ops : FloatOps F}.
Variable heap : ref → System F.
Variables (rng : F) (loop : bool).

Lemma cached_total_cost (p : list ref) :
  ∃ jumps dists,
    total_cost heap p rng loop
    = (route_hops heap rng loop p, jumps, route_dist heap rng loop p, dists).
Proof.
  unfold route_hops, route_dist.
  destruct (total_cost heap p rng loop) as [[[j js] l] ds]. eauto.
Qed.

(** One move: either nothing changes and the move was no improvement,
    or the move is taken and the flag is set. *)
Lemma k_body_cases (n i k : nat) (st : search F) :
  cached heap rng loop st →
  (k_body heap rng loop n i st k = st ∧
   (skipped loop n i k = false →
    better heap rng loop (reversal (best st) i k) (best st) = false))
  ∨
  (skipped loop n i k = false ∧
   better heap rng loop (reversal (best st) i k) (best st) = true ∧
   k_body heap rng loop n i st k
   = Search (reversal (best st) i k)
       (route_hops heap rng loop (reversal (best st) i k))
       (route_dist heap rng loop (reversal (best st) i k)) true).
Proof.
  intros [Hj Hl]. unfold k_body, better.
  destruct (skipped loop n i k); [left; split; [reflexivity|discriminate]|].
  destruct (cached_total_cost (reversal (best st) i k)) as (js & ds & ->).
  rewrite Hj, Hl.
  destruct (improves _ _ _ _); [right|left]; auto.
Qed.

Lemma k_body_cached (n i k : nat) (st : search F) :
  cached heap rng loop st → cached heap rng loop (k_body heap rng loop n i st k).
Proof.
  intros Hc. destruct (k_body_cases n i k st Hc) as [[-> _]|(_ & _ & ->)];
    [exact Hc|split; reflexivity].
Qed.

Lemma k_body_flag (n i k : nat) (st : search F) :
  improved st = true → improved (k_body heap rng loop n i st k) = true.
Proof.
  intros Hi. unfold k_body. destruct (skipped loop n i k); [exact Hi|].
  destruct (total_cost _ _ _ _) as [[[nj ?] nly] ?].
  destruct (improves _ _ _ _); [reflexivity|exact Hi].
Qed.

Lemma k_fold_flag (n i : nat) (ks : list nat) (st : search F) :
  improved st = true →
  improved (fold_left (k_body heap rng loop n i) ks st) = true.
Proof.
  revert st. induction ks as [|k ks IH]; intros st Hi; [exact Hi|].
  cbn [fold_left]. apply IH, k_body_flag, Hi.
Qed.

Lemma k_fold_cached (n i : nat) (ks : list nat) (st : search F) :
  cached heap rng loop st →
  cached heap rng loop (fold_left (k_body heap rng loop n i) ks st).
Proof.
  revert st. induction ks as [|k ks IH]; intros st Hc; [exact Hc|].
  cbn [fold_left]. apply IH, k_body_cached, Hc.
Qed.

(** A row that leaves the flag down changed nothing, and none of its
    moves was an improvement. *)
Lemma k_fold_quiet (n i : nat) (ks : list nat) (st : search F) :
  cached heap rng loop st →
  improved (fold_left (k_body heap rng loop n i) ks st) = false →
  fold_left (k_body heap rng loop n i) ks st = st ∧
  ∀ k, k ∈ ks → skipped loop n i k = false →
    better heap rng loop (reversal (best st) i k) (best st) = false.
Proof.
  revert st. induction ks as [|k ks IH]; intros st Hc Hq.
  - split; [reflexivity|]. intros k Hk. inversion Hk.
  - cbn [fold_left] in *.
    destruct (k_body_cases n i k st Hc) as [[E Hk]|(_ & _ & E)].
    + rewrite E in *. destruct (IH st Hc Hq) as [E' Hks].
      split; [exact E'|]. intros k' Hk'.
      apply elem_of_cons in Hk' as [->|Hk']; auto.
    + rewrite k_fold_flag in Hq; [discriminate|]. rewrite E. reflexivity.
Qed.

Lemma i_loop_cached (n : nat) (rows : list nat) (st : search F) :
  cached heap rng loop st → cached heap rng loop (i_loop heap rng loop n rows st).
Proof.
  revert st. induction rows as [|i rows IH]; intros st Hc; [exact Hc|].
  cbn [i_loop].
  pose proof (k_fold_cached n i (range (i + 1) n) st Hc) as Hc'.
  fold (k_loop heap rng loop n i st) in Hc'.
  destruct (improved (k_loop heap rng loop n i st)); auto.
Qed.

Lemma i_loop_quiet (n : nat) (rows : list nat) (st : search F) :
  cached heap rng loop st →
  improved (i_loop heap rng loop n rows st) = false →
  i_loop heap rng loop n rows st = st ∧
  ∀ i k, i ∈ rows → k ∈ range (i + 1) n → skipped loop n i k = false →
    better heap rng loop (reversal (best st) i k) (best st) = false.
Proof.
  revert st. induction rows as [|i rows IH]; intros st Hc Hq.
  - split; [reflexivity|]. intros i k Hi. inversion Hi.
  - cbn [i_loop] in *.
    destruct (improved (k_loop heap rng loop n i st)) eqn:Hrow;
      [congruence|].
    destruct (k_fold_quiet n i (range (i + 1) n) st Hc Hrow) as [E Hks].
    fold (k_loop heap rng loop n i st) in E. rewrite E in *.
    destruct (IH st Hc Hq) as [E' Hrows].
    split; [exact E'|]. intros i' k Hi'.
    apply elem_of_cons in Hi' as [->|Hi']; auto.
Qed.
End Search.

(** ** Progress and termination of the 2-opt search *)

Section Termination.
Context {F : Type} {ops : FloatOps F} {ord : FloatOrder F}.
Variable heap : ref → System F.
Variables (rng : F) (loop : bool).
Variable path0 : list ref.

Lemma better_irrefl (p : list ref) : better heap rng loop p p = false.
Proof. apply improves_irrefl. Qed.

Lemma better_trans (p q r : list ref) :
  better heap rng loop p q = true → better heap rng loop q r = true →
  better heap rng loop p r = true.
Proof. apply improves_trans. Qed.

Lemma k_fold_progress (n i : nat) (ks : list nat) (st : search F) :
  (1 ≤ i)%nat → (∀ k, k ∈ ks → (i ≤ k + 1)%nat) →
  reached heap rng loop path0 st →
  let st' := fold_left (k_body heap rng loop n i) ks st in
  reached heap rng loop path0 st' ∧
  (st' = st ∨
   (improved st' = true ∧ better heap rng loop (best st') (best st) = true)).
Proof.
  intros Hi. revert st. induction ks as [|k ks IH]; intros st Hks Hr.
  - split; [exact Hr|left; reflexivity].
  - cbn [fold_left]. destruct Hr as (Hp & Hh & Hc).
    assert (Hks' : ∀ k', k' ∈ ks → (i ≤ k' + 1)%nat)
      by (intros k' Hk'; apply Hks; right; exact Hk').
    destruct (k_body_cases heap rng loop n i k st Hc) as [[E _]|(_ & Hb & E)].
    + rewrite E. apply IH; [exact Hks'|]. exact (conj Hp (conj Hh Hc)).
    + assert (Hr1 : reached heap rng loop path0 (k_body heap rng loop n i st k)).
      { rewrite E. split; [|split; [|split; reflexivity]]; cbn [best].
        - rewrite reversal_perm; [exact Hp|]. apply Hks. left.
        - rewrite reversal_head; [exact Hh|exact Hi]. }
      destruct (IH _ Hks' Hr1) as [Hr' Hcase]. split; [exact Hr'|].
      right. destruct Hcase as [->|[Hf Hb']].
      * rewrite E. split; [reflexivity|exact Hb].
      * split; [exact Hf|]. eapply better_trans; [exact Hb'|].
        rewrite E. exact Hb.
Qed.

Lemma range_ge (a b k : nat) : k ∈ range a b → (a ≤ k)%nat.
Proof.
  unfold range. intros Hk. apply list_elem_of_In, in_seq in Hk. lia.
Qed.

Lemma i_loop_progress (n : nat) (rows : list nat) (st : search F) :
  (∀ i, i ∈ rows → (1 ≤ i)%nat) →
  reached heap rng loop path0 st →
  let st' := i_loop heap rng loop n rows st in
  reached heap rng loop path0 st' ∧
  (st' = st ∨
   (improved st' = true ∧ better heap rng loop (best st') (best st) = true)).
Proof.
  revert st. induction rows as [|i rows IH]; intros st Hrows Hr.
  - split; [exact Hr|left; reflexivity].
  - cbn [i_loop].
    assert (Hi : (1 ≤ i)%nat) by (apply Hrows; left).
    assert (Hks : ∀ k, k ∈ range (i + 1) n → (i ≤ k + 1)%nat)
      by (intros k Hk; apply range_ge in Hk; lia).
    destruct (k_fold_progress n i (range (i + 1) n) st Hi Hks Hr)
      as [Hr1 Hcase].
    fold (k_loop heap rng loop n i st) in Hr1, Hcase.
    cbv zeta. destruct (improved (k_loop heap rng loop n i st)) eqn:Hf; cbv iota.
    + split; [exact Hr1|]. rewrite Hf. exact Hcase.
    + destruct Hcase as [E|[Hf' _]]; [|congruence]. rewrite E.
      apply IH; [|exact Hr]. intros i' Hi'. apply Hrows. right. exact Hi'.
Qed.

(** One pass either finds nothing and leaves the search as it was (flag
    down), or ends on a strictly better route. *)
Lemma pass_progress (n : nat) (st : search F) :
  reached heap rng loop path0 st →
  let st' := pass heap rng loop n st in
  reached heap rng loop path0 st' ∧
  ((improved st' = false ∧
    st' = Search (best st) (best_j st) (best_ly st) false) ∨
   (improved st' = true ∧ better heap rng loop (best st') (best st) = true)).
Proof.
  intros Hr. unfold pass.
  set (st0 := Search (best st) (best_j st) (best_ly st) false).
  assert (Hr0 : reached heap rng loop path0 st0) by exact Hr.
  destruct (i_loop_progress n (range 1 (n - 2)) st0) as [Hr' Hcase];
    [intros i Hi; exact (range_ge _ _ _ Hi)|exact Hr0|].
  split; [exact Hr'|].
  destruct Hcase as [E|Hcase]; [left|right; exact Hcase].
  rewrite E. split; reflexivity.
Qed.

Lemma rank_decreases (p p' : list ref) :
  p' ≡ₚ path0 → better heap rng loop p' p = true →
  (rank heap rng loop path0 p' < rank heap rng loop path0 p)%nat.
Proof.
  intros Hp Hb. unfold rank. apply (filter_length_lt _ _ _ p').
  - intros q Hq. exact (better_trans _ _ _ Hq Hb).
  - apply permutations_Permutation. symmetry. exact Hp.
  - exact Hb.
  - apply better_irrefl.
Qed.

Lemma rank_bound (p : list ref) :
  (rank heap rng loop path0 p ≤ fact (length path0))%nat.
Proof.
  unfold rank. rewrite <- permutations_length. apply List.filter_length_le.
Qed.

(** With more passes allowed than the rank of the current route, the
    loop stops, on a state that a further pass leaves unchanged. *)
Lemma while_improved_stops (n passes : nat) (st : search F) :
  reached heap rng loop path0 st →
  (rank heap rng loop path0 (best st) < passes)%nat →
  ∃ st', while_improved heap passes rng loop n st = Some st' ∧
         reached heap rng loop path0 st' ∧
         improved st' = false ∧
         pass heap rng loop n st' = st'.
Proof.
  revert st. induction passes as [|passes IH]; intros st Hr Hlt; [lia|].
  cbn [while_improved].
  destruct (pass_progress n st Hr) as [Hr' [[Hf E]|[Hf Hb]]].
  - rewrite Hf. eexists. split; [reflexivity|].
    split; [exact Hr'|]. split; [exact Hf|].
    rewrite E at 1. unfold pass at 1. cbn [best best_j best_ly]. reflexivity.
  - rewrite Hf. apply IH; [exact Hr'|].
    destruct Hr' as [Hp' _].
    pose proof (rank_decreases (best st) _ Hp' Hb). lia.
Qed.
End Termination.

(** ** What [two_opt] returns *)

Section TwoOpt.
Context {F : Type} {ops : FloatOps F} {ord : FloatOrder F}.
Variable heap : ref → System F.

Lemma with_costs_path (rng : F) (loop : bool) (p : list ref) :
  res_path (with_costs heap rng loop p) = p.
Proof. unfold with_costs. destruct (total_cost _ _ _ _) as [[[? ?] ?] ?]. reflexivity. Qed.

Lemma with_costs_tj (rng : F) (loop : bool) (p : list ref) :
  res_tj (with_costs heap rng loop p) = route_hops heap rng loop p.
Proof.
  unfold with_costs, route_hops.
  destruct (total_cost _ _ _ _) as [[[? ?] ?] ?]. reflexivity.
Qed.

Lemma with_costs_tly (rng : F) (loop : bool) (p : list ref) :
  res_tly (with_costs heap rng loop p) = route_dist heap rng loop p.
Proof.
  unfold with_costs, route_dist.
  destruct (total_cost _ _ _ _) as [[[? ?] ?] ?]. reflexivity.
Qed.

(** The search started from a route whose cost is cached. *)
Lemma two_opt_unfold (path : list ref) (rng : F) (loop : bool) :
  two_opt heap path rng loop
  = (st ← while_improved heap (S (fact (length path))) rng loop (length path)
           (Search path (route_hops heap rng loop path)
                        (route_dist heap rng loop path) true);
     Some (with_costs heap rng loop (best st))).
Proof.
  unfold two_opt, with_costs.
  destruct (cached_total_cost heap rng loop path) as (js & ds & ->).
  destruct (while_improved _ _ _ _ _ _) as [st|]; [|reflexivity].
  cbn [mbind option_bind].
  destruct (total_cost heap (best st) rng loop) as [[[? ?] ?] ?].
  reflexivity.
Qed.

(** [two_opt] returns; the route it returns is a reordering of the
    input with the same first element, no move of a pass improves it,
    and [two_opt] maps it to itself. *)
Lemma two_opt_search (path : list ref) (rng : F) (loop : bool) :
  ∃ p, two_opt heap path rng loop = Some (with_costs heap rng loop p) ∧
       p ≡ₚ path ∧ head p = head path ∧
       quiet heap rng loop p ∧
       two_opt heap p rng loop = Some (with_costs heap rng loop p).
Proof.
  set (st0 := Search path (route_hops heap rng loop path)
                     (route_dist heap rng loop path) true).
  assert (Hr0 : reached heap rng loop path st0).
  { split; [reflexivity|]. split; [reflexivity|]. split; reflexivity. }
  destruct (while_improved_stops heap rng loop path (length path)
              (S (fact (length path))) st0 Hr0)
    as (st & Hw & (Hp & Hh & Hc) & Hf & Hfix).
  { pose proof (rank_bound heap rng loop path (best st0)). lia. }
  assert (Hlen : length (best st) = length path)
    by exact (Permutation_length Hp).
  exists (best st). split; [|split; [exact Hp|split; [exact Hh|split]]].
  - rewrite two_opt_unfold. fold st0. rewrite Hw. reflexivity.
  - intros i k Hi Hk Hs. rewrite Hlen in Hi, Hk, Hs.
    unfold pass in Hfix.
    assert (Hq : improved (i_loop heap rng loop (length path)
                  (range 1 (length path - 2))
                  (Search (best st) (best_j st) (best_ly st) false)) = false)
      by (rewrite Hfix; exact Hf).
    apply i_loop_quiet in Hq; [|exact Hc].
    destruct Hq as [_ Hq]. exact (Hq i k Hi Hk Hs).
  - rewrite two_opt_unfold, Hlen. cbn [while_improved].
    destruct Hc as [Hj Hl].
    replace (pass heap rng loop (length path)
               (Search (best st) (route_hops heap rng loop (best st))
                       (route_dist heap rng loop (best st)) true))
      with (pass heap rng loop (length path) st).
    + rewrite Hfix, Hf. reflexivity.
    + unfold pass. cbn [best best_j best_ly]. rewrite Hj, Hl. reflexivity.
Qed.

(** C10. For every input route, range and loop flag, [two_opt] returns
    a route that is a permutation of the input route (same references
    with the same multiplicities, same length) and has the same first
    element. *)
Theorem two_opt_permutation (path : list ref) (rng : F) (loop : bool) :
  ∃ r, two_opt heap path rng loop = Some r ∧
       res_path r ≡ₚ path ∧
       length (res_path r) = length path ∧
       head (res_path r) = head path.
Proof.
  destruct (two_opt_search path rng loop) as (p & Hr & Hp & Hh & _).
  eexists. split; [exact Hr|]. rewrite with_costs_path.
  split; [exact Hp|]. split; [exact (Permutation_length Hp)|exact Hh].
Qed.


(** C9. [two_opt] is idempotent: run again on the route it returned,
    with the same range and loop flag, it returns the same route, totals
    and per-leg lists. *)
Theorem two_opt_idempotent (path : list ref) (rng : F) (loop : bool) :
  ∃ r, two_opt heap path rng loop = Some r ∧
       two_opt heap (res_path r) rng loop = Some r.
Proof.
  destruct (two_opt_search path rng loop) as (p & Hr & _ & _ & _ & Hfix).
  eexists. split; [exact Hr|]. rewrite with_costs_path. exact Hfix.
Qed.

Corollary two_opt_total (path : list ref) (rng : F) (loop : bool) :
  is_Some (two_opt heap path rng loop).
Proof.
  destruct (two_opt_search path rng loop) as (p & Hr & _). eauto.
Qed.
End TwoOpt.

(** ** The rational instance is ordered *)

Lemma Qltb_lt (a b : Q) : Qltb a b = true ↔ (a < b)%Q.
Proof.
  unfold Qltb. rewrite Qlt_alt. destruct (a ?= b)%Q; split; congruence.
Qed.

#[export] Instance Qorder : FloatOrder Q.
Proof.
  split.
  - intros a. change (Qltb a a = false).
    destruct (Qltb a a) eqn:E; [|reflexivity].
    apply Qltb_lt, Qlt_irrefl in E. destruct E.
  - intros a b c Hab Hbc. change (Qltb a c = true).
    change (Qltb a b = true) in Hab. change (Qltb b c = true) in Hbc.
    apply Qltb_lt in Hab, Hbc. apply Qltb_lt. exact (Qlt_trans _ _ _ Hab Hbc).
Qed.

Lemma two_opt_permutation_line5 :
  ∃ r, two_opt line5 [0; 1; 2; 3; 4]%nat 2%Q false = Some r ∧
       res_path r ≡ₚ [0; 1; 2; 3; 4]%nat ∧
       length (res_path r) = 5%nat ∧
       head (res_path r) = Some 0%nat.
Proof. exact (two_opt_permutation line5 [0; 1; 2; 3; 4]%nat 2%Q false). Defined.


Lemma two_opt_idempotent_line5 :
  ∃ r, two_opt line5 [0; 1; 2; 3; 4]%nat 2%Q false = Some r ∧
       two_opt line5 (res_path r) 2%Q false = Some r.
Proof. exact (two_opt_idempotent line5 [0; 1; 2; 3; 4]%nat 2%Q false). Defined.

(** ** [total_cost] and [jumps_to] *)

Section CostModel.
Context {F : Type} {ops : FloatOps F}.
Variable heap : ref → System F.

(** C8. For every route of length less than 2, every range and either
    loop flag, [total_cost] returns [(0, [], 0.0, [])]. *)
Theorem total_cost_short (path : list ref) (rng : F) (loop : bool) :
  (length path < 2)%nat →
  total_cost heap path rng loop = (0, [], f_zero, []).
Proof.
  intros Hlen. unfold total_cost.
  apply Nat.ltb_lt in Hlen. rewrite Hlen. reflexivity.
Qed.

(** C5, amended. [jumps_to] returns 0 whenever the distance is not
    greater than [1e-6] (so when it is below it, and also when it is
    equal to it), and returns [max(1, ceil(distance / max_range))], which
    is at least 1, whenever the distance is greater than [1e-6]. *)
Theorem jumps_to_cases {ord : FloatOrder F} (a b : System F) (rng : F) :
  let d := distance_to a b in
  (f_lt d f_eps = true → jumps_to a b rng = 0) ∧
  (f_lt f_eps d = false → jumps_to a b rng = 0) ∧
  (f_lt f_eps d = true →
     jumps_to a b rng = Z.max 1 (f_ceil (f_div d rng)) ∧
     1 ≤ jumps_to a b rng).
Proof.
  intros d. unfold jumps_to. fold d.
  split; [|split].
  - intros Hlt. rewrite (f_lt_asym _ _ Hlt). reflexivity.
  - intros ->. reflexivity.
  - intros ->. split; [reflexivity|lia].
Qed.
End CostModel.

Lemma total_cost_short_line3 :
  total_cost line3 [1%nat] 15%Q true = (0, [], f_zero, []).
Proof. apply (total_cost_short line3 [1%nat] 15%Q true). simpl. lia. Defined.

Lemma jumps_to_cases_line3 :
  let d := distance_to (line3 0%nat) (line3 2%nat) in
  (f_lt d f_eps = true → jumps_to (line3 0%nat) (line3 2%nat) 15%Q = 0) ∧
  (f_lt f_eps d = false → jumps_to (line3 0%nat) (line3 2%nat) 15%Q = 0) ∧
  (f_lt f_eps d = true →
     jumps_to (line3 0%nat) (line3 2%nat) 15%Q
     = Z.max 1 (f_ceil (f_div d 15%Q)) ∧
     1 ≤ jumps_to (line3 0%nat) (line3 2%nat) 15%Q).
Proof. exact (jumps_to_cases (line3 0%nat) (line3 2%nat) 15%Q). Defined.

(** C5 as stated fails at a distance of exactly [1e-6]: the range is
    positive and the distance is not below the epsilon, yet [jumps_to]
    returns 0, which is not [max(1, ceil(distance / max_range))] = 1. *)
Lemma jumps_to_at_epsilon :
  f_lt f_zero 1%Q = true ∧
  f_lt (distance_to origin nearby) f_eps = false ∧
  jumps_to origin nearby 1%Q = 0 ∧
  Z.max 1 (f_ceil (f_div (distance_to origin nearby) 1%Q)) = 1 ∧
  jumps_to origin nearby 1%Q
    ≠ Z.max 1 (f_ceil (f_div (distance_to origin nearby) 1%Q)).
Proof.
  do 4 (split; [vm_compute; reflexivity|]). vm_compute. discriminate.
Qed.

(** ** Concrete runs *)

(** A set of two elements is iterated in one of two orders. *)
Lemma two_element_order (set_iter : list ref → list ref) (a b : ref) :
  (∀ l, set_iter l ≡ₚ l) →
  set_iter [a; b] = [a; b] ∨ set_iter [a; b] = [b; a].
Proof.
  intros Hperm. apply Permutation_length_2_inv. symmetry. apply Hperm.
Qed.

Lemma one_element_order (set_iter : list ref → list ref) (a : ref) :
  (∀ l, set_iter l ≡ₚ l) → set_iter [a] = [a].
Proof.
  intros Hperm. apply Permutation_length_1_inv. symmetry. apply Hperm.
Qed.

(** Evaluates the argument of [set_iter] in the goal. *)
Ltac eval_set_iter set_iter :=
  match goal with
  | |- context [set_iter ?l] =>
      let l' := eval vm_compute in l in change l with l'
  end.

(** Unfolds [solve] down to its call of [nearest_neighbor] and evaluates
    the pool. *)
Ltac eval_pool :=
  unfold solve;
  cbv beta iota zeta delta [length Nat.ltb Nat.leb head last negb andb];
  match goal with
  | |- context [nearest_neighbor _ _ ?l _ _ _] =>
      let l' := eval vm_compute in l in change l with l'
  end.

(** Replaces the call of [nearest_neighbor] in the goal by its value [p],
    given a proof [Hnn] that it has this value. *)
Ltac use_route p Hnn :=
  match goal with
  | |- context [nearest_neighbor ?h ?s ?l ?a ?fe ?r] =>
      replace (nearest_neighbor h s l a fe r) with p by (symmetry; exact Hnn)
  end.

(** C7. On A(0,0,0), B(10,0,0), C(20,0,0) with range 15, whatever the
    iteration order of the set: the hop counts are 1, 1 and 2; the greedy
    route from A is [A, B, C] (on all three systems, and also the way
    [solve] builds it, from the pool [A, B] with C as fixed end); a pass
    of [two_opt] on it tries no move and leaves the flag down, and the
    reversal of B and C is no improvement either; [two_opt] and [solve]
    return [A, B, C] with 2 hops and distance 20. *)
Theorem spec_example (set_iter : list ref → list ref) :
  (∀ l, set_iter l ≡ₚ l) →
  jumps_to (line3 0%nat) (line3 1%nat) 15%Q = 1 ∧
  jumps_to (line3 1%nat) (line3 2%nat) 15%Q = 1 ∧
  jumps_to (line3 0%nat) (line3 2%nat) 15%Q = 2 ∧
  nearest_neighbor line3 set_iter [0; 1; 2]%nat 0%nat None 15%Q
    = [0; 1; 2]%nat ∧
  nearest_neighbor line3 set_iter [0; 1]%nat 0%nat (Some 2%nat) 15%Q
    = [0; 1; 2]%nat ∧
  moves false 3 = [] ∧
  pass line3 15%Q false 3 (Search [0; 1; 2]%nat 2 20%Q true)
    = Search [0; 1; 2]%nat 2 20%Q false ∧
  better line3 15%Q false (reversal [0; 1; 2]%nat 1 2) [0; 1; 2]%nat = false ∧
  two_opt line3 [0; 1; 2]%nat 15%Q false
    = Some ([0; 1; 2]%nat, [1; 1], 2, 20%Q, [10%Q; 10%Q]) ∧
  solve line3 set_iter [0; 1; 2]%nat 15%Q false true
    = Some ([0; 1; 2]%nat, [1; 1], 2, 20%Q, [10%Q; 10%Q]).
Proof.
  intros Hperm.
  assert (Hnn : nearest_neighbor line3 set_iter [0; 1]%nat 0%nat (Some 2%nat) 15%Q
                = [0; 1; 2]%nat).
  { unfold nearest_neighbor. eval_set_iter set_iter.
    rewrite (one_element_order set_iter 1%nat Hperm). vm_compute. reflexivity. }
  do 3 (split; [vm_compute; reflexivity|]).
  split.
  { unfold nearest_neighbor. eval_set_iter set_iter.
    destruct (two_element_order set_iter 1%nat 2%nat Hperm) as [-> | ->];
      vm_compute; reflexivity. }
  split; [exact Hnn|].
  do 4 (split; [vm_compute; reflexivity|]).
  eval_pool. use_route [0; 1; 2]%nat Hnn. vm_compute. reflexivity.
Qed.

Lemma spec_example_insertion_order :
  jumps_to (line3 0%nat) (line3 1%nat) 15%Q = 1 ∧
  jumps_to (line3 1%nat) (line3 2%nat) 15%Q = 1 ∧
  jumps_to (line3 0%nat) (line3 2%nat) 15%Q = 2 ∧
  nearest_neighbor line3 insertion_order [0; 1; 2]%nat 0%nat None 15%Q
    = [0; 1; 2]%nat ∧
  nearest_neighbor line3 insertion_order [0; 1]%nat 0%nat (Some 2%nat) 15%Q
    = [0; 1; 2]%nat ∧
  moves false 3 = [] ∧
  pass line3 15%Q false 3 (Search [0; 1; 2]%nat 2 20%Q true)
    = Search [0; 1; 2]%nat 2 20%Q false ∧
  better line3 15%Q false (reversal [0; 1; 2]%nat 1 2) [0; 1; 2]%nat = false ∧
  two_opt line3 [0; 1; 2]%nat 15%Q false
    = Some ([0; 1; 2]%nat, [1; 1], 2, 20%Q, [10%Q; 10%Q]) ∧
  solve line3 insertion_order [0; 1; 2]%nat 15%Q false true
    = Some ([0; 1; 2]%nat, [1; 1], 2, 20%Q, [10%Q; 10%Q]).
Proof. apply (spec_example insertion_order). intros l. reflexivity. Defined.

(** On A(0), B(2), C(3), D(1) with range 1, no loop back and the last
    system D as fixed end, whatever the iteration order of the set: the
    greedy route ends with D, and the first pass of [two_opt] reverses
    positions 1..3, which moves D to position 1. *)
Lemma solve_line4 (set_iter : list ref → list ref) :
  (∀ l, set_iter l ≡ₚ l) →
  nearest_neighbor line4 set_iter [0; 1; 2]%nat 0%nat (Some 3%nat) 1%Q
    = [0; 1; 2; 3]%nat ∧
  solve line4 set_iter [0; 1; 2; 3]%nat 1%Q false true
    = Some ([0; 3; 2; 1]%nat, [1; 2; 1], 4, 4%Q, [1%Q; 2%Q; 1%Q]).
Proof.
  intros Hperm.
  assert (Hnn : nearest_neighbor line4 set_iter [0; 1; 2]%nat 0%nat
                  (Some 3%nat) 1%Q = [0; 1; 2; 3]%nat).
  { unfold nearest_neighbor. eval_set_iter set_iter.
    destruct (two_element_order set_iter 1%nat 2%nat Hperm) as [-> | ->];
      vm_compute; reflexivity. }
  split; [exact Hnn|].
  eval_pool. use_route [0; 1; 2; 3]%nat Hnn. vm_compute. reflexivity.
Qed.

(** C1 on the code: with [loop_back = false] and [final_is_last = true],
    [solve] on the four distinct systems A(0), B(2), C(3), D(1) and range
    1 returns the route A, D, C, B: it ends with B, not with the last
    input system D. *)
Theorem solve_fixed_end_moved :
  ∃ r, solve line4 insertion_order [0; 1; 2; 3]%nat 1%Q false true = Some r ∧
       res_path r = [0; 3; 2; 1]%nat ∧
       last (res_path r) = Some 1%nat ∧
       last (res_path r) ≠ last [0; 1; 2; 3]%nat.
Proof.
  destruct (solve_line4 insertion_order) as [_ Hs]; [intros l; reflexivity|].
  eexists. split; [exact Hs|]. cbn. repeat split. discriminate.
Qed.

(** ** The search policy of [two_opt] *)

Section Policy.
Context {F : Type} {ops : FloatOps F}.
Variable heap : ref → System F.
Variables (rng : F) (loop : bool).

Lemma k_fold_row (n i : nat) (ks : list nat) (st : search F) :
  cached heap rng loop st →
  best (fold_left (k_body heap rng loop n i) ks st)
  = fold_left (row_step heap rng loop n i) ks (best st).
Proof.
  revert st. induction ks as [|k ks IH]; intros st Hc; [reflexivity|].
  cbn [fold_left]. rewrite IH by (apply k_body_cached; exact Hc).
  f_equal. unfold row_step.
  destruct (k_body_cases heap rng loop n i k st Hc) as [[E Hk]|(Hs & Hb & E)].
  - rewrite E. destruct (skipped loop n i k); [reflexivity|].
    rewrite Hk; reflexivity.
  - rewrite E, Hs, Hb. reflexivity.
Qed.

Lemma k_fold_flag_row (n i : nat) (ks : list nat) (st : search F) :
  cached heap rng loop st → improved st = false →
  improved (fold_left (k_body heap rng loop n i) ks st)
  = existsb (λ k, negb (skipped loop n i k) &&
                  better heap rng loop (reversal (best st) i k) (best st)) ks.
Proof.
  revert st. induction ks as [|k ks IH]; intros st Hc Hf; [exact Hf|].
  cbn [fold_left existsb].
  destruct (k_body_cases heap rng loop n i k st Hc) as [[E Hk]|(Hs & Hb & E)].
  - rewrite E, (IH st Hc Hf).
    destruct (skipped loop n i k); [reflexivity|].
    rewrite Hk; reflexivity.
  - rewrite Hs, Hb. cbn [negb andb orb].
    apply k_fold_flag. rewrite E. reflexivity.
Qed.

Lemma i_loop_rows (n : nat) (rows : list nat) (st : search F) :
  cached heap rng loop st → improved st = false →
  match List.find (row_improving heap rng loop n (best st)) rows with
  | Some i => improved (i_loop heap rng loop n rows st) = true ∧
              best (i_loop heap rng loop n rows st)
              = row_sweep heap rng loop n i (best st)
  | None => i_loop heap rng loop n rows st = st
  end.
Proof.
  intros Hc Hf. induction rows as [|i rows IH]; [reflexivity|].
  cbn [i_loop List.find].
  pose proof (k_fold_flag_row n i (range (i + 1) n) st Hc Hf) as Hrow.
  fold (k_loop heap rng loop n i st) in Hrow.
  fold (row_improving heap rng loop n (best st) i) in Hrow.
  rewrite <- Hrow.
  destruct (improved (k_loop heap rng loop n i st)) eqn:Hi.
  - split; [exact Hi|]. apply k_fold_row, Hc.
  - destruct (k_fold_quiet heap rng loop n i (range (i + 1) n) st Hc Hi)
      as [E _].
    fold (k_loop heap rng loop n i st) in E. rewrite E. exact IH.
Qed.

Lemma while_row_sweep (n passes : nat) (st : search F) :
  cached heap rng loop st →
  best <$> while_improved heap passes rng loop n st
  = row_sweep_search heap passes rng loop n (best st).
Proof.
  revert st. induction passes as [|passes IH]; intros st Hc; [reflexivity|].
  cbn [while_improved row_sweep_search]. unfold row_sweep_pass, pass.
  set (st0 := Search (best st) (best_j st) (best_ly st) false).
  assert (Hc0 : cached heap rng loop st0) by exact Hc.
  pose proof (i_loop_rows n (range 1 (n - 2)) st0 Hc0 eq_refl) as Hrows.
  pose proof (i_loop_cached heap rng loop n (range 1 (n - 2)) st0 Hc0) as Hc'.
  change (best st0) with (best st) in Hrows.
  destruct (List.find _ _) as [i|]; cbn [fmap option_fmap option_map].
  - destruct Hrows as [Hi Hb]. rewrite Hi, (IH _ Hc'), Hb. reflexivity.
  - rewrite Hrows. reflexivity.
Qed.

(** C2, amended. [two_opt] is the row-sweep search: in a pass the rows
    [i] are taken in increasing order; in the first row with an
    improving reversal the loop over [k] runs to its end, every [k]
    tried against the route as improved so far and every improving
    reversal applied; after that row the pass is over and a new pass
    starts from the improved route; the search ends with the first pass
    in which no row has an improving reversal. *)
Theorem two_opt_row_sweep_eq (path : list ref) :
  two_opt heap path rng loop = two_opt_row_sweep heap path rng loop.
Proof.
  rewrite two_opt_unfold. unfold two_opt_row_sweep.
  rewrite <- (while_row_sweep (length path) (S (fact (length path)))
                (Search path (route_hops heap rng loop path)
                        (route_dist heap rng loop path) true))
    by (split; reflexivity).
  destruct (while_improved _ _ _ _ _ _) as [st|]; [|reflexivity].
  cbn [fmap option_fmap option_map mbind option_bind]. unfold with_costs.
  destruct (total_cost heap (best st) rng loop) as [[[? ?] ?] ?].
  reflexivity.
Qed.
End Policy.

(** C2 as stated fails on the code.  On the route A(2), B(1), C(4), D(5),
    E(0) with range 2 and no loop, the first pass accepts the reversal
    (i, k) = (1, 3) and then, in the same pass, also the reversal (1, 4)
    of the improved route; first improvement with restart leaves the pass
    after (1, 3).  The two searches end on different routes. *)
Lemma two_opt_not_first_improvement :
  pass line5 2%Q false 5 (Search [0; 1; 2; 3; 4]%nat 7 10%Q true)
    = Search [0; 4; 1; 2; 3]%nat 5 7%Q true ∧
  first_improvement_pass line5 2%Q false [0; 1; 2; 3; 4]%nat
    = Some [0; 3; 2; 1; 4]%nat ∧
  two_opt line5 [0; 1; 2; 3; 4]%nat 2%Q false
    = Some ([0; 4; 1; 2; 3]%nat, [1; 1; 2; 1], 5, 7%Q, [2%Q; 1%Q; 3%Q; 1%Q]) ∧
  two_opt_first_improvement line5 [0; 1; 2; 3; 4]%nat 2%Q false
    = Some ([0; 2; 3; 1; 4]%nat, [1; 1; 2; 1], 5, 8%Q, [2%Q; 1%Q; 4%Q; 1%Q]) ∧
  two_opt line5 [0; 1; 2; 3; 4]%nat 2%Q false
    ≠ two_opt_first_improvement line5 [0; 1; 2; 3; 4]%nat 2%Q false.
Proof.
  do 4 (split; [vm_compute; reflexivity|]).
  vm_compute. discriminate.
Qed.


(** ** Routes built by [nearest_neighbor] *)

Lemma min_by_elem (key : ref → Z) (m : ref) (l : list ref) :
  min_by key m l ∈ m :: l.
Proof.
  revert m. induction l as [|s l IH]; intros m; cbn [min_by]; [left|].
  destruct (key s <? key m).
  - right. apply IH.
  - specialize (IH m). apply elem_of_cons in IH as [-> | IH];
      [left|right; right; exact IH].
Qed.

Lemma filter_ne_absent (a : ref) (l : list ref) :
  a ∉ l → filter (λ t, t ≠ a) l = l.
Proof.
  induction l as [|b l IH]; intros Hne; [reflexivity|].
  apply not_elem_of_cons in Hne as [Hab Hl].
  rewrite filter_cons_True by (intros E; apply Hab; symmetry; exact E).
  rewrite (IH Hl). reflexivity.
Qed.

(** Removing an element of a duplicate-free list takes out one element. *)
Lemma filter_ne_perm (a : ref) (l : list ref) :
  NoDup l → a ∈ l → l ≡ₚ a :: filter (λ t, t ≠ a) l.
Proof.
  induction l as [|b l IH]; intros Hnd Hin; [inversion Hin|].
  apply NoDup_cons in Hnd as [Hb Hnd].
  destruct (decide (b = a)) as [->|Hne].
  - rewrite filter_cons_False by (intros E; apply E; reflexivity).
    rewrite (filter_ne_absent a l Hb). reflexivity.
  - apply elem_of_cons in Hin as [->|Hin]; [destruct Hne; reflexivity|].
    rewrite filter_cons_True by exact Hne.
    rewrite (IH Hnd Hin) at 1. apply perm_swap.
Qed.

Section Greedy.
Context {F : Type} {ops : FloatOps F}.
Variable heap : ref → System F.
Variable set_iter : list ref → list ref.
Hypothesis set_iter_perm : ∀ l, set_iter l ≡ₚ l.

(** The loop only appends, and what it appends comes from [unvisited]. *)
Lemma nn_loop_ext (rng : F) (turns : nat) (unvisited path : list ref) (cur : ref) :
  ∃ ext, nn_loop heap turns unvisited path cur rng = path ++ ext ∧
         ∀ s, s ∈ ext → s ∈ unvisited.
Proof.
  revert unvisited path cur.
  induction turns as [|turns IH]; intros unvisited path cur.
  - exists []. cbn [nn_loop]. rewrite app_nil_r. split; [reflexivity|].
    intros s Hs. inversion Hs.
  - destruct unvisited as [|s rest].
    + exists []. cbn [nn_loop]. rewrite app_nil_r. split; [reflexivity|].
      intros s Hs. inversion Hs.
    + cbn [nn_loop].
      set (nxt := min_by (λ t, jumps_to (heap cur) (heap t) rng) s rest).
      destruct (IH (filter (λ t, t ≠ nxt) (s :: rest)) (path ++ [nxt]) nxt)
        as (ext & -> & Hext).
      exists (nxt :: ext). rewrite <- app_assoc. split; [reflexivity|].
      intros t Ht. apply elem_of_cons in Ht as [-> | Ht].
      * apply min_by_elem.
      * apply Hext, list_elem_of_filter in Ht. apply Ht.
Qed.

(** With [length unvisited] turns the loop empties the set: every system
    of [unvisited] is appended, once. *)
Lemma nn_loop_visits_all (rng : F) (turns : nat) (unvisited path : list ref)
    (cur : ref) :
  NoDup unvisited → (length unvisited ≤ turns)%nat →
  nn_loop heap turns unvisited path cur rng ≡ₚ path ++ unvisited.
Proof.
  revert unvisited path cur.
  induction turns as [|turns IH]; intros unvisited path cur Hnd Hlen.
  - destruct unvisited; [|cbn in Hlen; lia]. cbn [nn_loop].
    rewrite app_nil_r. reflexivity.
  - destruct unvisited as [|s rest]; [cbn [nn_loop]; rewrite app_nil_r; reflexivity|].
    cbn [nn_loop].
    set (nxt := min_by (λ t, jumps_to (heap cur) (heap t) rng) s rest).
    pose proof (filter_ne_perm nxt (s :: rest) Hnd (min_by_elem _ s rest)) as Hp.
    rewrite IH.
    + rewrite <- app_assoc. cbn [app]. rewrite <- Hp. reflexivity.
    + apply NoDup_filter, Hnd.
    + apply Permutation_length in Hp. cbn [length] in Hp, Hlen. lia.
Qed.

(** Without a fixed end, the greedy route visits the start and then every
    other system once. *)
Lemma nearest_neighbor_visits_all (systems : list ref) (start : ref) (rng : F) :
  nearest_neighbor heap set_iter systems start None rng
  ≡ₚ start :: filter (λ s, s ≠ start) (remove_dups systems).
Proof.
  unfold nearest_neighbor.
  set (unvisited := set_iter (filter (λ s, s ≠ start) (remove_dups systems))).
  rewrite nn_loop_visits_all; [|  |reflexivity].
  - cbn [app]. unfold unvisited. rewrite set_iter_perm. reflexivity.
  - unfold unvisited. rewrite set_iter_perm.
    apply NoDup_filter, NoDup_remove_dups.
Qed.

(** Without a fixed end, the greedy route is the start followed by
    systems other than the start. *)
Lemma nearest_neighbor_open (systems : list ref) (start : ref) (rng : F) :
  ∃ ext, nearest_neighbor heap set_iter systems start None rng = start :: ext ∧
         start ∉ ext.
Proof.
  unfold nearest_neighbor.
  set (unvisited := set_iter (filter (λ s, s ≠ start) (remove_dups systems))).
  destruct (nn_loop_ext rng (length unvisited) unvisited [start] start)
    as (ext & -> & Hext).
  exists ext. split; [reflexivity|]. intros Hin.
  apply Hext in Hin. unfold unvisited in Hin. rewrite set_iter_perm in Hin.
  apply list_elem_of_filter in Hin as [Hne _]. apply Hne. reflexivity.
Qed.
End Greedy.

(** ** Open and closed routes in [total_cost] *)

Lemma zip_cons_snoc (b : ref) (p : list ref) (a pl : ref) :
  last (b :: p) = Some pl →
  zip (b :: p) (p ++ [a]) = zip (take (length p) (b :: p)) p ++ [(pl, a)].
Proof.
  revert b. induction p as [|c p IH]; intros b Hl.
  - injection Hl as ->. reflexivity.
  - rewrite last_cons_cons in Hl.
    change (zip (b :: c :: p) ((c :: p) ++ [a]))
      with ((b, c) :: zip (c :: p) (p ++ [a])).
    rewrite (IH c Hl). reflexivity.
Qed.

(** The legs of a route closed by one more element [a]. *)
Lemma zip_legs_snoc (p : list ref) (a pl : ref) :
  last p = Some pl →
  zip p (drop 1 p ++ [a]) = zip (take (length p - 1) p) (drop 1 p) ++ [(pl, a)].
Proof.
  destruct p as [|b p]; intros Hl; [discriminate|].
  cbn [length drop]. rewrite drop_0, Nat.sub_succ, Nat.sub_0_r.
  exact (zip_cons_snoc b p a pl Hl).
Qed.

Section Legs.
Context {F : Type} {ops : FloatOps F}.
Variable heap : ref → System F.
Variable rng : F.

(** In loop mode [total_cost] adds the leg from the last element back to
    the first to the cost of the open route. *)
Lemma total_cost_loop (p : list ref) (p0 pl : ref) :
  (2 ≤ length p)%nat → head p = Some p0 → last p = Some pl →
  total_cost heap p rng true
  = add_leg heap rng (total_cost heap p rng false) (pl, p0).
Proof.
  intros Hlen Hh Hl. unfold total_cost.
  apply Nat.ltb_ge in Hlen. rewrite Hlen, Hh, Hl.
  destruct (last p), (head p); reflexivity.
Qed.

(** The open cost of the closed route is the loop cost of the route. *)
Lemma total_cost_closed (p : list ref) (p0 : ref) :
  (2 ≤ length p)%nat → head p = Some p0 →
  total_cost heap (p ++ [p0]) rng false = total_cost heap p rng true.
Proof.
  intros Hlen Hh.
  destruct (last p) as [pl|] eqn:Hl;
    [|apply last_None in Hl; subst p; cbn in Hlen; lia].
  rewrite (total_cost_loop p p0 pl Hlen Hh Hl).
  unfold total_cost at 1.
  assert (Hlen' : (length (p ++ [p0]) <? 2)%nat = false)
    by (apply Nat.ltb_ge; rewrite length_app; cbn [length]; lia).
  rewrite Hlen'.
  replace (length (p ++ [p0]) - 1)%nat with (length p)
    by (rewrite length_app; cbn [length]; lia).
  rewrite take_app_length.
  replace (drop 1 (p ++ [p0])) with (drop 1 p ++ [p0])
    by (rewrite drop_app_le by lia; reflexivity).
  rewrite (zip_legs_snoc p p0 pl Hl), fold_left_app. cbn [fold_left].
  unfold total_cost. apply Nat.ltb_ge in Hlen. rewrite Hlen.
  destruct (last (p ++ [p0])), (head (p ++ [p0])); reflexivity.
Qed.

Lemma fold_add_leg_lengths (legs : list (ref * ref)) (acc : cost F) :
  length (fold_left (add_leg heap rng) legs acc).1.1.2
  = (length acc.1.1.2 + length legs)%nat ∧
  length (fold_left (add_leg heap rng) legs acc).2
  = (length acc.2 + length legs)%nat.
Proof.
  revert acc. induction legs as [|ab legs IH]; intros acc.
  - cbn [fold_left length]. lia.
  - cbn [fold_left]. destruct (IH (add_leg heap rng acc ab)) as [-> ->].
    destruct acc as [[[tj jumps] tly] dists]. cbn [add_leg fst snd length].
    rewrite !length_app. cbn [length]. lia.
Qed.

(** An open route of [n >= 2] elements has [n - 1] legs. *)
Lemma open_leg_counts (p : list ref) :
  (2 ≤ length p)%nat →
  length (leg_hops heap rng false p) = (length p - 1)%nat ∧
  length (leg_dists heap rng false p) = (length p - 1)%nat.
Proof.
  intros Hlen. unfold leg_hops, leg_dists, total_cost.
  assert (Hz : length (zip (take (length p - 1) p) (drop 1 p))
               = (length p - 1)%nat).
  { rewrite length_zip_with, length_take, length_drop. lia. }
  apply Nat.ltb_ge in Hlen. rewrite Hlen.
  destruct (fold_add_leg_lengths
              (zip (take (length p - 1) p) (drop 1 p)) (0, [], f_zero, []))
    as [Hj Hd].
  rewrite Hz in Hj, Hd. exact (conj Hj Hd).
Qed.
End Legs.

(** ** [solve] with [loop_back = true] *)

Section Loop.
Context {F : Type} {ops : FloatOps F} {ord : FloatOrder F}.
Variable heap : ref → System F.
Variable set_iter : list ref → list ref.

(** A comprehension whose condition holds of every element keeps the list. *)
Lemma filter_all (P : ref → Prop) `{∀ s, Decision (P s)} (l : list ref) :
  (∀ s, P s) → filter P l = l.
Proof.
  intros HP. induction l as [|s l IH]; [reflexivity|].
  rewrite filter_cons_True by apply HP. rewrite IH. reflexivity.
Qed.

(** [solve] in loop mode, after the greedy route has been refined to [p]. *)
Lemma solve_loop_unfold (systems : list ref) (rng : F) (fil : bool)
    (start : ref) (p : list ref) :
  (2 ≤ length systems)%nat → head systems = Some start →
  two_opt heap (nearest_neighbor heap set_iter systems start None rng) rng true
    = Some (with_costs heap rng true p) →
  solve heap set_iter systems rng true fil
  = match head p, last p with
    | Some p0, Some pl =>
        if bool_decide (p0 ≠ pl) then
          Some (p ++ [p0],
                leg_hops heap rng true p ++ [jumps_to (heap pl) (heap p0) rng],
                route_hops heap rng true p, route_dist heap rng true p,
                leg_dists heap rng true p ++ [distance_to (heap pl) (heap p0)])
        else Some (with_costs heap rng true p)
    | _, _ => Some (with_costs heap rng true p)
    end.
Proof.
  intros Hlen Hh Hr. unfold solve.
  apply Nat.ltb_ge in Hlen. rewrite Hlen, Hh.
  destruct (last systems) as [sl|] eqn:Hl;
    [|apply last_None in Hl; subst systems; discriminate].
  cbv beta iota zeta delta [negb andb].
  rewrite filter_all by discriminate. rewrite Hr. cbn [mbind option_bind].
  unfold with_costs, leg_hops, leg_dists, route_hops, route_dist.
  destruct (total_cost heap p rng true) as [[[tj jumps] tly] dists].
  cbn [fst snd]. destruct (head p), (last p); reflexivity.
Qed.

(** What [two_opt] returns is a route together with its costs. *)
Lemma two_opt_with_costs (path : list ref) (rng : F) (loop : bool)
    (r : result F) :
  two_opt heap path rng loop = Some r →
  r = with_costs heap rng loop (res_path r).
Proof.
  rewrite two_opt_unfold.
  destruct (while_improved _ _ _ _ _ _) as [st|]; [|discriminate].
  cbn [mbind option_bind]. intros [= <-].
  rewrite with_costs_path. reflexivity.
Qed.

(** C3. In loop mode on at least 2 systems, let [two_opt] return the
    refined route [p] with lists [jumps], [dists] and totals [tj], [tly],
    and let [p] not be closed already (first element [p0], last element
    [pl], different).  Then [jumps] and [dists] already end with the
    closing leg [pl -> p0], put there by [total_cost] in loop mode, and
    [solve] appends that leg once more: the lists it returns hold the
    closing leg twice and have one more entry than the returned route
    [p ++ [p0]] has legs, while the totals hold the closing leg once.
    ([two_opt] does return on every route: [two_opt_total].) *)
Theorem solve_loop_leg_lists (systems : list ref) (rng : F) (fil : bool)
    (start : ref) (p : list ref) (jumps : list Z) (tj : Z) (tly : F)
    (dists : list F) (p0 pl : ref) :
  (2 ≤ length systems)%nat → head systems = Some start →
  two_opt heap (nearest_neighbor heap set_iter systems start None rng) rng true
    = Some (p, jumps, tj, tly, dists) →
  head p = Some p0 → last p = Some pl → p0 ≠ pl →
  let jc := jumps_to (heap pl) (heap p0) rng in
  let dc := distance_to (heap pl) (heap p0) in
  jumps = leg_hops heap rng false p ++ [jc] ∧
  dists = leg_dists heap rng false p ++ [dc] ∧
  solve heap set_iter systems rng true fil
    = Some (p ++ [p0], jumps ++ [jc], tj, tly, dists ++ [dc]) ∧
  tj = route_hops heap rng false p + jc ∧
  tly = f_add (route_dist heap rng false p) dc ∧
  length (jumps ++ [jc]) = S (length (p ++ [p0]) - 1) ∧
  length (dists ++ [dc]) = S (length (p ++ [p0]) - 1).
Proof.
  intros Hlen Hh Hr Hp0 Hpl Hne jc dc.
  assert (Hlp : (2 ≤ length p)%nat).
  { destruct p as [|a [|b p]]; cbn [length]; [discriminate| |lia].
    cbn in Hp0, Hpl. congruence. }
  pose proof (two_opt_with_costs _ _ _ _ Hr) as Hw.
  change (res_path (p, jumps, tj, tly, dists)) with p in Hw.
  pose proof Hr as Hr'. rewrite Hw in Hr'.
  rewrite (solve_loop_unfold systems rng fil start p Hlen Hh Hr'), Hp0, Hpl.
  rewrite bool_decide_eq_true_2 by exact Hne.
  destruct (open_leg_counts heap rng p Hlp) as [Hj Hd].
  revert Hw Hj Hd.
  unfold with_costs, leg_hops, leg_dists, route_hops, route_dist.
  rewrite (total_cost_loop heap rng p p0 pl Hlp Hp0 Hpl).
  destruct (total_cost heap p rng false) as [[[tj' jumps'] tly'] dists'].
  cbn [add_leg fst snd]. fold jc dc. intros [= -> -> -> ->] Hj Hd.
  repeat split; rewrite !length_app; cbn [length]; lia.
Qed.

Hypothesis set_iter_perm : ∀ l, set_iter l ≡ₚ l.

(** Without a fixed end the greedy route has no system twice and holds
    exactly the input systems. *)
Lemma nearest_neighbor_tour (systems : list ref) (start : ref) (rng : F)
    (p : list ref) :
  head systems = Some start →
  p ≡ₚ nearest_neighbor heap set_iter systems start None rng →
  NoDup p ∧ ∀ s, s ∈ p ↔ s ∈ systems.
Proof.
  intros Hh Hperm.
  rewrite (nearest_neighbor_visits_all heap set_iter set_iter_perm) in Hperm.
  assert (Hstart : start ∈ systems) by (apply head_Some_elem_of; exact Hh).
  split.
  - rewrite Hperm. apply NoDup_cons. split.
    + intros Hin. apply list_elem_of_filter in Hin as [Hne _].
      apply Hne. reflexivity.
    + apply NoDup_filter, NoDup_remove_dups.
  - intros s. rewrite Hperm, elem_of_cons, list_elem_of_filter,
      elem_of_remove_dups.
    split; [intros [->|[_ Hs]]; assumption|].
    intros Hs. destruct (decide (s = start)) as [E|Hne]; [left; exact E|].
    right. split; assumption.
Qed.

(** C6. For at least 2 input systems and [loop_back = true], [solve]
    returns a route whose first and last elements are the first input
    system [start], with the total hops and total distance of all the
    legs of that route.  The route is a route [p] closed by [start]: [p]
    starts at [start] and holds every input system, once; its last
    element [pl] is another system than [start]; and the returned totals
    are the hops and the distance of the open route [p] plus those of
    the closing leg from [pl] back to [start].  The one exception is an
    input whose references all denote the same system: then [p] is that
    system alone, there is no leg at all, and [solve] returns it with
    totals zero. *)
Theorem solve_loop_closed (systems : list ref) (rng : F) (fil : bool) :
  (2 ≤ length systems)%nat →
  ∃ r start p,
    solve heap set_iter systems rng true fil = Some r ∧
    head systems = Some start ∧
    head (res_path r) = Some start ∧
    last (res_path r) = Some start ∧
    res_tj r = route_hops heap rng false (res_path r) ∧
    res_tly r = route_dist heap rng false (res_path r) ∧
    head p = Some start ∧ NoDup p ∧ (∀ s, s ∈ p ↔ s ∈ systems) ∧
    ((p = [start] ∧ r = ([start], [], 0, f_zero, [])) ∨
     (∃ pl, last p = Some pl ∧ pl ≠ start ∧
        res_path r = p ++ [start] ∧
        res_tj r = route_hops heap rng false p
                   + jumps_to (heap pl) (heap start) rng ∧
        res_tly r = f_add (route_dist heap rng false p)
                          (distance_to (heap pl) (heap start)))).
Proof.
  intros Hlen.
  destruct systems as [|start rest] eqn:Hsys; [cbn in Hlen; lia|].
  rewrite <- Hsys in *.
  assert (Hh : head systems = Some start) by (subst; reflexivity).
  destruct (nearest_neighbor_open heap set_iter set_iter_perm systems start rng)
    as (ext & Hnn & _).
  destruct (two_opt_search heap
              (nearest_neighbor heap set_iter systems start None rng) rng true)
    as (p & Hr & Hperm & Hhp & _).
  destruct (nearest_neighbor_tour systems start rng p Hh Hperm) as [Hnd Hin].
  rewrite Hnn in Hhp. cbn [head] in Hhp.
  exists (match last p with
          | Some pl =>
              if bool_decide (start ≠ pl) then
                (p ++ [start],
                 leg_hops heap rng true p ++ [jumps_to (heap pl) (heap start) rng],
                 route_hops heap rng true p, route_dist heap rng true p,
                 leg_dists heap rng true p ++ [distance_to (heap pl) (heap start)])
              else with_costs heap rng true p
          | None => with_costs heap rng true p
          end), start, p.
  split.
  { rewrite (solve_loop_unfold systems rng fil start p Hlen Hh Hr), Hhp.
    destruct (last p) as [pl|]; [|reflexivity].
    destruct (bool_decide (start ≠ pl)); reflexivity. }
  split; [exact Hh|].
  destruct p as [|p0 q]; [discriminate|]. injection Hhp as ->.
  destruct q as [|q1 q].
  - (* every input reference is the start *)
    cbn [last]. rewrite bool_decide_eq_false_2 by (intros Hne; apply Hne; reflexivity).
    rewrite with_costs_path, with_costs_tj, with_costs_tly.
    do 5 (split; [reflexivity|]). split; [exact Hnd|]. split; [exact Hin|].
    left. split; reflexivity.
  - destruct (last (start :: q1 :: q)) as [pl|] eqn:Hl;
      [|apply last_None in Hl; discriminate].
    assert (Hpl : pl ≠ start).
    { intros ->. apply NoDup_cons in Hnd as [Hnot _]. apply Hnot.
      rewrite last_cons_cons in Hl. exact (last_Some_elem_of _ _ Hl). }
    rewrite bool_decide_eq_true_2 by (intros E; apply Hpl; symmetry; exact E).
    unfold res_path, res_tj, res_tly. cbn [fst snd].
    split; [reflexivity|]. split; [apply last_snoc|].
    assert (Hlp : (2 ≤ length (start :: q1 :: q))%nat) by (cbn [length]; lia).
    unfold route_hops, route_dist.
    rewrite (total_cost_closed heap rng (start :: q1 :: q) start Hlp eq_refl).
    do 3 (split; [reflexivity|]). split; [exact Hnd|]. split; [exact Hin|].
    right. exists pl. split; [reflexivity|]. split; [exact Hpl|].
    split; [reflexivity|].
    rewrite (total_cost_loop heap rng (start :: q1 :: q) start pl Hlp eq_refl Hl).
    destruct (total_cost heap (start :: q1 :: q) rng false)
      as [[[tj jumps] tly] dists].
    split; reflexivity.
Qed.
End Loop.

Lemma insertion_order_perm (l : list ref) : insertion_order l ≡ₚ l.
Proof. reflexivity. Qed.

Lemma solve_loop_leg_lists_line3 :
  [1; 1; 2] = leg_hops line3 15%Q false [0; 1; 2]%nat ++ [2] ∧
  [10%Q; 10%Q; 20%Q] = leg_dists line3 15%Q false [0; 1; 2]%nat ++ [20%Q] ∧
  solve line3 insertion_order [0; 1; 2]%nat 15%Q true true
    = Some ([0; 1; 2; 0]%nat, [1; 1; 2; 2], 4, 40%Q, [10%Q; 10%Q; 20%Q; 20%Q]) ∧
  4 = route_hops line3 15%Q false [0; 1; 2]%nat + 2 ∧
  40%Q = f_add (route_dist line3 15%Q false [0; 1; 2]%nat) 20%Q ∧
  length [1; 1; 2; 2] = S (length [0; 1; 2; 0]%nat - 1) ∧
  length [10%Q; 10%Q; 20%Q; 20%Q] = S (length [0; 1; 2; 0]%nat - 1).
Proof.
  assert (Hlen : (2 ≤ length [0; 1; 2]%nat)%nat) by (simpl; lia).
  assert (Hr : two_opt line3
                 (nearest_neighbor line3 insertion_order [0; 1; 2]%nat 0%nat
                    None 15%Q) 15%Q true
               = Some ([0; 1; 2]%nat, [1; 1; 2], 4, 40%Q, [10%Q; 10%Q; 20%Q]))
    by (vm_compute; reflexivity).
  assert (Hne : 0%nat ≠ 2%nat) by lia.
  pose proof (solve_loop_leg_lists line3 insertion_order [0; 1; 2]%nat 15%Q
                true 0%nat [0; 1; 2]%nat [1; 1; 2] 4 40%Q [10%Q; 10%Q; 20%Q]
                0%nat 2%nat Hlen eq_refl Hr eq_refl eq_refl Hne) as H.
  vm_compute in H. vm_compute. exact H.
Defined.

Lemma solve_loop_closed_line3 :
  ∃ r p pl,
    solve line3 insertion_order [0; 1; 2]%nat 15%Q true true = Some r ∧
    head (res_path r) = Some 0%nat ∧
    last (res_path r) = Some 0%nat ∧
    res_tj r = route_hops line3 15%Q false (res_path r) ∧
    res_tly r = route_dist line3 15%Q false (res_path r) ∧
    head p = Some 0%nat ∧ NoDup p ∧ (∀ s, s ∈ p ↔ s ∈ [0; 1; 2]%nat) ∧
    last p = Some pl ∧ pl ≠ 0%nat ∧
    res_path r = p ++ [0%nat] ∧
    res_tj r = route_hops line3 15%Q false p
               + jumps_to (line3 pl) (line3 0%nat) 15%Q ∧
    res_tly r = f_add (route_dist line3 15%Q false p)
                      (distance_to (line3 pl) (line3 0%nat)).
Proof.
  assert (Hlen : (2 ≤ length [0; 1; 2]%nat)%nat) by (simpl; lia).
  destruct (solve_loop_closed line3 insertion_order insertion_order_perm
              [0; 1; 2]%nat 15%Q true Hlen)
    as (r & start & p & Hr & Hh & Hh' & Hl' & Htj & Htly & Hhp & Hnd & Hin
        & Hcase).
  injection Hh as <-.
  destruct Hcase as [[-> _]|(pl & Hl & Hne & Hp & Hj & Hd)].
  - (* the three systems are not all the first one *)
    exfalso. assert (H1 : 1%nat ∈ [0%nat]) by (apply Hin; right; left).
    apply list_elem_of_singleton in H1. discriminate.
  - exists r, p, pl. auto 15.
Defined.

(** * Further properties of the route engine *)

(** ** [total_cost]: totals, per-leg lists, leg counts *)

Section CostFacts.
Context {F : Type} {ops : FloatOps F}.
Variable heap : ref → System F.
Variable rng : F.

(** A route of fewer than 2 systems costs nothing. *)
Lemma total_cost_lt2 (path : list ref) (loop : bool) :
  (length path < 2)%nat →
  total_cost heap path rng loop = (0, [], f_zero, []).
Proof.
  intros Hlen. unfold total_cost.
  apply Nat.ltb_lt in Hlen. rewrite Hlen. reflexivity.
Qed.

Lemma jumps_to_nonneg (a b : System F) : 0 ≤ jumps_to a b rng.
Proof. unfold jumps_to. destruct (f_lt _ _); lia. Qed.

(** The accumulators of [total_cost] stay in step: each total is the sum
    of its list, taken from the left. *)
Lemma fold_add_leg_sums (legs : list (ref * ref)) (acc : cost F) :
  acc.1.1.1 = fold_left Z.add acc.1.1.2 0 →
  acc.1.2 = fold_left f_add acc.2 f_zero →
  Forall (λ j, 0 ≤ j) acc.1.1.2 →
  let acc' := fold_left (add_leg heap rng) legs acc in
  acc'.1.1.1 = fold_left Z.add acc'.1.1.2 0 ∧
  acc'.1.2 = fold_left f_add acc'.2 f_zero ∧
  Forall (λ j, 0 ≤ j) acc'.1.1.2.
Proof.
  revert acc. induction legs as [|ab legs IH]; intros acc Hj Hd Hn.
  - cbn [fold_left]. auto.
  - cbn [fold_left]. apply IH; destruct acc as [[[tj jumps] tly] dists];
      cbn [add_leg fst snd] in *.
    + rewrite fold_left_app. cbn [fold_left]. rewrite Hj. reflexivity.
    + rewrite fold_left_app. cbn [fold_left]. rewrite Hd. reflexivity.
    + apply Forall_app. split; [exact Hn|].
      apply Forall_cons. split; [apply jumps_to_nonneg|apply Forall_nil_2].
Qed.

Lemma total_cost_steps (path : list ref) (loop : bool) :
  ∃ legs, total_cost heap path rng loop
          = fold_left (add_leg heap rng) legs (0, [], f_zero, []) ∧
          length legs = (if loop && (2 <=? length path)%nat
                         then length path else length path - 1)%nat.
Proof.
  unfold total_cost. destruct (length path <? 2)%nat eqn:Hlen.
  - exists []. split; [reflexivity|]. apply Nat.ltb_lt in Hlen.
    destruct (2 <=? length path)%nat eqn:E; [apply Nat.leb_le in E; lia|].
    rewrite andb_false_r. cbn [length]. lia.
  - apply Nat.ltb_ge in Hlen.
    assert (Hz : length (zip (take (length path - 1) path) (drop 1 path))
                 = (length path - 1)%nat)
      by (rewrite length_zip_with, length_take, length_drop; lia).
    assert (E : (2 <=? length path)%nat = true) by (apply Nat.leb_le; lia).
    rewrite E, andb_true_r.
    destruct loop.
    + destruct (last path) as [pl|] eqn:Hl;
        [|apply last_None in Hl; subst path; cbn in Hlen; lia].
      destruct (head path) as [p0|] eqn:Hh;
        [|destruct path; [cbn in Hlen; lia|discriminate]].
      exists (zip (take (length path - 1) path) (drop 1 path) ++ [(pl, p0)]).
      rewrite fold_left_app, length_app, Hz. cbn [fold_left length].
      split; [reflexivity|lia].
    + exists (zip (take (length path - 1) path) (drop 1 path)).
      split; [|exact Hz]. destruct (last path), (head path); reflexivity.
Qed.

Lemma total_cost_sums_aux (path : list ref) (loop : bool) :
  route_hops heap rng loop path
    = fold_left Z.add (leg_hops heap rng loop path) 0 ∧
  route_dist heap rng loop path
    = fold_left f_add (leg_dists heap rng loop path) f_zero.
Proof.
  unfold route_hops, route_dist, leg_hops, leg_dists.
  destruct (total_cost_steps path loop) as (legs & -> & _).
  destruct (fold_add_leg_sums legs (0, [], f_zero, [])) as (Hj & Hd & _);
    [reflexivity|reflexivity|apply Forall_nil_2|].
  exact (conj Hj Hd).
Qed.

(** X1. The totals [total_cost] returns are the sums of the per-leg lists
    it returns: the total hop count is the sum of the per-leg hops, and
    the total distance is the per-leg distances added up from the left,
    starting from 0. *)
Theorem total_cost_sums (path : list ref) (loop : bool) :
  route_hops heap rng loop path
    = fold_left Z.add (leg_hops heap rng loop path) 0 ∧
  route_dist heap rng loop path
    = fold_left f_add (leg_dists heap rng loop path) f_zero.
Proof. exact (total_cost_sums_aux path loop). Qed.

Lemma total_cost_leg_counts_aux (path : list ref) (loop : bool) :
  let legs := (if loop && (2 <=? length path)%nat
               then length path else length path - 1)%nat in
  length (leg_hops heap rng loop path) = legs ∧
  length (leg_dists heap rng loop path) = legs.
Proof.
  unfold leg_hops, leg_dists.
  destruct (total_cost_steps path loop) as (legs & -> & <-).
  destruct (fold_add_leg_lengths heap rng legs (0, [], f_zero, [])) as [Hj Hd].
  cbn [fst snd length] in Hj, Hd. cbn zeta. rewrite Hj, Hd. split; reflexivity.
Qed.

(** X2. The two per-leg lists of [total_cost] have one entry per leg: for
    a route of [n] systems, [n - 1] entries, and [n] entries in loop mode
    when [n >= 2] (a route of fewer than 2 systems has no leg in either
    mode). *)
Theorem total_cost_leg_counts (path : list ref) (loop : bool) :
  let legs := (if loop && (2 <=? length path)%nat
               then length path else length path - 1)%nat in
  length (leg_hops heap rng loop path) = legs ∧
  length (leg_dists heap rng loop path) = legs.
Proof. exact (total_cost_leg_counts_aux path loop). Qed.

(** X3. Hop counts are never negative, whatever the range (a negative
    range included): every per-leg hop count is at least 0, and so is the
    total. *)
Theorem total_cost_hops_nonneg (path : list ref) (loop : bool) :
  Forall (λ j, 0 ≤ j) (leg_hops heap rng loop path) ∧
  0 ≤ route_hops heap rng loop path.
Proof.
  destruct (total_cost_sums_aux path loop) as [-> _].
  unfold leg_hops.
  destruct (total_cost_steps path loop) as (legs & -> & _).
  destruct (fold_add_leg_sums legs (0, [], f_zero, [])) as (_ & _ & Hn);
    [reflexivity|reflexivity|apply Forall_nil_2|].
  cbv zeta in Hn. split; [exact Hn|].
  assert (Hsum : ∀ (js : list Z) (a : Z),
            Forall (λ j, 0 ≤ j) js → 0 ≤ a → 0 ≤ fold_left Z.add js a).
  { induction js as [|j js IH]; intros a Hjs Ha; [exact Ha|].
    apply Forall_cons in Hjs as [Hj Hjs]. cbn [fold_left].
    apply IH; [exact Hjs|lia]. }
  apply Hsum; [exact Hn|lia].
Qed.
End CostFacts.

(** ** [nearest_neighbor]: what the greedy route contains *)

Lemma min_by_le (key : ref → Z) (m : ref) (l : list ref) (t : ref) :
  t ∈ m :: l → key (min_by key m l) ≤ key t.
Proof.
  revert m t. induction l as [|s l IH]; intros m t Ht; cbn [min_by].
  - apply elem_of_cons in Ht as [->|Ht]; [lia|inversion Ht].
  - destruct (key s <? key m) eqn:E.
    + apply Z.ltb_lt in E.
      apply elem_of_cons in Ht as [->|Ht].
      * specialize (IH s s ltac:(left)). lia.
      * apply IH. exact Ht.
    + apply Z.ltb_ge in E.
      apply elem_of_cons in Ht as [->|Ht]; [apply IH; left|].
      apply elem_of_cons in Ht as [->|Ht].
      * specialize (IH m m ltac:(left)). lia.
      * apply IH. right. exact Ht.
Qed.

Lemma remove_first_absent (a : ref) (l : list ref) :
  a ∉ l → remove_first a l = l.
Proof.
  induction l as [|b l IH]; intros Ha; [reflexivity|].
  apply not_elem_of_cons in Ha as [Hab Hl]. cbn [remove_first].
  destruct (decide (b = a)) as [->|_]; [destruct Hab; reflexivity|].
  rewrite (IH Hl). reflexivity.
Qed.

(** [list.remove] takes one occurrence out. *)
Lemma remove_first_perm (a : ref) (l : list ref) :
  a ∈ l → l ≡ₚ a :: remove_first a l.
Proof.
  induction l as [|b l IH]; intros Ha; [inversion Ha|].
  cbn [remove_first]. destruct (decide (b = a)) as [->|Hne]; [reflexivity|].
  apply elem_of_cons in Ha as [->|Ha]; [destruct Hne; reflexivity|].
  rewrite (IH Ha) at 1. apply perm_swap.
Qed.

Section GreedyFacts.
Context {F : Type} {ops : FloatOps F}.
Variable heap : ref → System F.
Variable set_iter : list ref → list ref.

(** X4. With a fixed end, the route [nearest_neighbor] returns ends with
    it, wherever the greedy steps had put it and whether or not it was
    among the systems. *)
Theorem nearest_neighbor_fixed_end_last (systems : list ref) (start fe : ref)
    (rng : F) :
  last (nearest_neighbor heap set_iter systems start (Some fe) rng) = Some fe.
Proof.
  unfold nearest_neighbor.
  destruct (decide (last _ ≠ Some fe)) as [Hne|Heq].
  - apply last_snoc.
  - destruct (decide (last (nn_loop heap
        (length (set_iter (filter (λ s, s ≠ start) (remove_dups systems))))
        (set_iter (filter (λ s, s ≠ start) (remove_dups systems)))
        [start] start rng) = Some fe)) as [E|E]; [exact E|].
    destruct (Heq E).
Qed.

Lemma nn_loop_greedy (rng : F) (turns : nat) (unvisited path : list ref)
    (cur : ref) :
  ∃ ext, nn_loop heap turns unvisited path cur rng = path ++ ext ∧
         (∀ s, s ∈ ext → s ∈ unvisited) ∧
         greedy_chain heap rng cur ext.
Proof.
  revert unvisited path cur.
  induction turns as [|turns IH]; intros unvisited path cur.
  - exists []. cbn [nn_loop greedy_chain]. rewrite app_nil_r.
    split; [reflexivity|]. split; [intros s Hs; inversion Hs|exact I].
  - destruct unvisited as [|s rest].
    + exists []. cbn [nn_loop greedy_chain]. rewrite app_nil_r.
      split; [reflexivity|]. split; [intros s Hs; inversion Hs|exact I].
    + cbn [nn_loop].
      set (key := λ t, jumps_to (heap cur) (heap t) rng).
      set (nxt := min_by key s rest).
      destruct (IH (filter (λ t, t ≠ nxt) (s :: rest)) (path ++ [nxt]) nxt)
        as (ext & -> & Hext & Hchain).
      exists (nxt :: ext). rewrite <- app_assoc. split; [reflexivity|].
      split.
      * intros t Ht. apply elem_of_cons in Ht as [-> | Ht].
        -- apply min_by_elem.
        -- apply Hext, list_elem_of_filter in Ht. apply Ht.
      * cbn [greedy_chain]. split; [|exact Hchain].
        intros t Ht. apply Hext, list_elem_of_filter in Ht as [_ Ht].
        exact (min_by_le key s rest t Ht).
Qed.

(** X5. Without a fixed end, the route of [nearest_neighbor] is greedy on
    hop counts: it starts with [start], and every system in it is followed
    by one that has the fewest hops from it among all the systems that
    come after it. *)
Theorem nearest_neighbor_greedy (systems : list ref) (start : ref) (rng : F) :
  ∃ ext, nearest_neighbor heap set_iter systems start None rng = start :: ext ∧
         greedy_chain heap rng start ext.
Proof.
  unfold nearest_neighbor.
  destruct (nn_loop_greedy rng
              (length (set_iter (filter (λ s, s ≠ start) (remove_dups systems))))
              (set_iter (filter (λ s, s ≠ start) (remove_dups systems)))
              [start] start) as (ext & -> & _ & Hchain).
  exists ext. split; [reflexivity|exact Hchain].
Qed.

Hypothesis set_iter_perm : ∀ l, set_iter l ≡ₚ l.

Lemma nearest_neighbor_visits_once_aux (systems : list ref) (start : ref)
    (fixed_end : option ref) (rng : F) :
  NoDup (nearest_neighbor heap set_iter systems start fixed_end rng) ∧
  ∀ s, s ∈ nearest_neighbor heap set_iter systems start fixed_end rng
       ↔ s = start ∨ s ∈ systems ∨ fixed_end = Some s.
Proof.
  pose proof (nearest_neighbor_visits_all heap set_iter set_iter_perm
                systems start rng) as Hall.
  assert (Hnd : NoDup (nearest_neighbor heap set_iter systems start None rng)).
  { rewrite Hall. apply NoDup_cons. split.
    - intros Hin. apply list_elem_of_filter in Hin as [Hne _].
      apply Hne. reflexivity.
    - apply NoDup_filter, NoDup_remove_dups. }
  assert (Hin : ∀ s, s ∈ nearest_neighbor heap set_iter systems start None rng
                     ↔ s = start ∨ s ∈ systems).
  { intros s. rewrite Hall, elem_of_cons, list_elem_of_filter,
      elem_of_remove_dups.
    destruct (decide (s = start)); tauto. }
  destruct fixed_end as [fe|].
  2:{ split; [exact Hnd|]. intros s. rewrite Hin.
      split; [tauto|]. intros [?|[?|?]]; [tauto|tauto|discriminate]. }
  revert Hnd Hin. unfold nearest_neighbor.
  set (path := nn_loop heap _ _ [start] start rng). intros Hnd Hin.
  destruct (decide (last path ≠ Some fe)) as [Hne|Heq].
  - destruct (decide (fe ∈ path)) as [Hfe|Hfe].
    + pose proof (remove_first_perm fe path Hfe) as Hp.
      assert (Hrf : ∀ s, s ∈ path ↔ s = fe ∨ s ∈ remove_first fe path)
        by (intros s; rewrite Hp at 1; apply elem_of_cons).
      rewrite Hp in Hnd. apply NoDup_cons in Hnd as [Hfe' Hnd'].
      split.
      * apply NoDup_app. split; [exact Hnd'|]. split; [|apply NoDup_singleton].
        intros s Hs Hs'. apply list_elem_of_singleton in Hs'. subst s.
        exact (Hfe' Hs).
      * intros s. rewrite elem_of_app, list_elem_of_singleton.
        specialize (Hin s). specialize (Hrf s).
        split.
        -- intros [Hs| ->]; [|right; right; reflexivity].
           destruct Hin as [Hin _].
           destruct Hin as [?|?]; [tauto|tauto|tauto].
        -- intros [Hs|[Hs|E]]; [| |injection E as ->; right; reflexivity].
           ++ destruct (decide (s = fe)) as [->|Hne']; [right; reflexivity|].
              left. tauto.
           ++ destruct (decide (s = fe)) as [->|Hne']; [right; reflexivity|].
              left. tauto.
    + rewrite (remove_first_absent fe path Hfe). split.
      * apply NoDup_app. split; [exact Hnd|]. split; [|apply NoDup_singleton].
        intros s Hs Hs'. apply list_elem_of_singleton in Hs'. subst s.
        exact (Hfe Hs).
      * intros s. rewrite elem_of_app, list_elem_of_singleton.
        specialize (Hin s).
        split.
        -- intros [Hs| ->]; [tauto|right; right; reflexivity].
        -- intros [Hs|[Hs|E]]; [tauto|tauto|].
           injection E as ->. right. reflexivity.
  - assert (Hl : last path = Some fe)
      by (destruct (decide (last path = Some fe)); [assumption|tauto]).
    apply last_Some_elem_of in Hl.
    split; [exact Hnd|]. intros s. rewrite Hin.
    split; [tauto|]. intros [?|[?|E]]; [tauto|tauto|].
    injection E as ->. apply Hin. exact Hl.
Qed.

(** X6. When the set is iterated element by element, the route of
    [nearest_neighbor] holds no system twice, and holds exactly the start,
    the given systems and the fixed end (if there is one). *)
Theorem nearest_neighbor_visits_once (systems : list ref) (start : ref)
    (fixed_end : option ref) (rng : F) :
  NoDup (nearest_neighbor heap set_iter systems start fixed_end rng) ∧
  ∀ s, s ∈ nearest_neighbor heap set_iter systems start fixed_end rng
       ↔ s = start ∨ s ∈ systems ∨ fixed_end = Some s.
Proof. exact (nearest_neighbor_visits_once_aux systems start fixed_end rng). Qed.
End GreedyFacts.

(** ** [two_opt]: what the search can and cannot change *)

Lemma range_elem (a b k : nat) : k ∈ range a b ↔ (a ≤ k < b)%nat.
Proof.
  unfold range. rewrite list_elem_of_In, in_seq. lia.
Qed.

Lemma last_drop_lt (p : list ref) (m : nat) :
  (m < length p)%nat → last (drop m p) = last p.
Proof.
  intros Hm. rewrite !last_lookup, lookup_drop, length_drop.
  f_equal. lia.
Qed.

(** A property of routes that every move of a pass keeps is kept by the
    whole search. *)
Section SearchInvariant.
Context {F : Type} {ops : FloatOps F}.
Variable heap : ref → System F.
Variables (rng : F) (loop : bool) (n : nat).
Variable P : list ref → Prop.
Hypothesis P_move : ∀ p i k,
  P p → i ∈ range 1 (n - 2) → k ∈ range (i + 1) n →
  skipped loop n i k = false → P (reversal p i k).

Lemma k_fold_inv (i : nat) (ks : list nat) (st : search F) :
  i ∈ range 1 (n - 2) → (∀ k, k ∈ ks → k ∈ range (i + 1) n) →
  P (best st) → P (best (fold_left (k_body heap rng loop n i) ks st)).
Proof.
  intros Hi. revert st. induction ks as [|k ks IH]; intros st Hks HP.
  - exact HP.
  - cbn [fold_left]. apply IH; [intros k' Hk'; apply Hks; right; exact Hk'|].
    unfold k_body. destruct (skipped loop n i k) eqn:Hs; [exact HP|].
    destruct (total_cost _ _ _ _) as [[[nj ?] nly] ?].
    destruct (improves _ _ _ _); [|exact HP].
    cbn [best]. apply P_move; [exact HP|exact Hi|apply Hks; left|exact Hs].
Qed.

Lemma i_loop_inv (rows : list nat) (st : search F) :
  (∀ i, i ∈ rows → i ∈ range 1 (n - 2)) →
  P (best st) → P (best (i_loop heap rng loop n rows st)).
Proof.
  revert st. induction rows as [|i rows IH]; intros st Hrows HP; [exact HP|].
  cbn [i_loop].
  assert (HP' : P (best (k_loop heap rng loop n i st))).
  { apply k_fold_inv; [apply Hrows; left|auto|exact HP]. }
  destruct (improved (k_loop heap rng loop n i st)); [exact HP'|].
  apply IH; [intros i' Hi'; apply Hrows; right; exact Hi'|exact HP'].
Qed.

Lemma while_improved_inv (passes : nat) (st st' : search F) :
  while_improved heap passes rng loop n st = Some st' →
  P (best st) → P (best st').
Proof.
  revert st. induction passes as [|passes IH]; intros st Hw HP; [discriminate|].
  cbn [while_improved] in Hw.
  assert (HP' : P (best (pass heap rng loop n st)))
    by (apply i_loop_inv; [auto|exact HP]).
  destruct (improved (pass heap rng loop n st)).
  - exact (IH _ Hw HP').
  - injection Hw as <-. exact HP'.
Qed.
End SearchInvariant.

Section TwoOptFacts.
Context {F : Type} {ops : FloatOps F} {ord : FloatOrder F}.
Variable heap : ref → System F.

Lemma two_opt_inv (P : list ref → Prop) (path : list ref) (rng : F)
    (loop : bool) (r : result F) :
  (∀ p i k, P p → i ∈ range 1 (length path - 2) →
     k ∈ range (i + 1) (length path) →
     skipped loop (length path) i k = false → P (reversal p i k)) →
  P path → two_opt heap path rng loop = Some r → P (res_path r).
Proof.
  intros Hmove HP. rewrite two_opt_unfold.
  destruct (while_improved _ _ _ _ _ _) as [st|] eqn:Hw; [|discriminate].
  cbn [mbind option_bind]. intros [= <-]. rewrite with_costs_path.
  exact (while_improved_inv heap rng loop (length path) P Hmove _ _ _ Hw HP).
Qed.

(** X7. In loop mode [two_opt] leaves the first two systems and the last
    system of the route where they are: only the positions from 2 to
    [n - 2] are ever rearranged. *)
Theorem two_opt_loop_pins_ends (path : list ref) (rng : F) :
  ∃ r, two_opt heap path rng true = Some r ∧
       take 2 (res_path r) = take 2 path ∧
       last (res_path r) = last path.
Proof.
  destruct (two_opt_total heap path rng true) as [r Hr].
  exists r. split; [exact Hr|].
  pose proof (two_opt_inv
    (λ p, length p = length path ∧ take 2 p = take 2 path ∧ last p = last path)
    path rng true r) as Hinv.
  cbv beta in Hinv. apply Hinv; [|auto|exact Hr].
  intros p i k (Hlen & Ht & Hl) Hi Hk Hs.
  apply range_elem in Hi, Hk. unfold skipped in Hs. cbn [andb] in Hs.
  apply orb_false_iff in Hs as [Hi1 Hk1]. apply Nat.eqb_neq in Hi1, Hk1.
  split; [|split].
  - rewrite <- Hlen. apply Permutation_length, reversal_perm. lia.
  - rewrite <- Ht. unfold reversal.
    rewrite take_app_le by (rewrite length_take; lia).
    rewrite take_take. f_equal. lia.
  - rewrite <- Hl. unfold reversal. rewrite app_assoc, last_app.
    rewrite last_drop_lt by lia.
    destruct (last p) eqn:E; [reflexivity|].
    apply last_None in E. subst p. cbn [length] in Hlen. lia.
Qed.

Lemma while_improved_better (rng : F) (loop : bool) (path0 : list ref)
    (n passes : nat) (st st' : search F) :
  reached heap rng loop path0 st →
  while_improved heap passes rng loop n st = Some st' →
  best st' = best st ∨ better heap rng loop (best st') (best st) = true.
Proof.
  revert st. induction passes as [|passes IH]; intros st Hr Hw; [discriminate|].
  cbn [while_improved] in Hw.
  destruct (pass_progress heap rng loop path0 n st Hr) as [Hr' Hcase].
  destruct (improved (pass heap rng loop n st)) eqn:Hf.
  - destruct Hcase as [[Hf' _]|[_ Hb]]; [congruence|].
    destruct (IH _ Hr' Hw) as [E|Hb'].
    + right. rewrite E. exact Hb.
    + right. exact (better_trans heap rng loop _ _ _ Hb' Hb).
  - injection Hw as <-. destruct Hcase as [[_ E]|[Hf' _]]; [|congruence].
    left. rewrite E. reflexivity.
Qed.

(** X8. [two_opt] never returns a worse route than it was given: the
    returned total hop count is at most the total hop count of the input
    route, and when the two are equal the returned total distance is not
    greater than that of the input route. *)
Theorem two_opt_never_worse (path : list ref) (rng : F) (loop : bool) :
  ∃ r, two_opt heap path rng loop = Some r ∧
       res_tj r ≤ route_hops heap rng loop path ∧
       (res_tj r = route_hops heap rng loop path →
        f_lt (route_dist heap rng loop path) (res_tly r) = false).
Proof.
  destruct (two_opt_total heap path rng loop) as [r Hr].
  exists r. split; [exact Hr|].
  rewrite two_opt_unfold in Hr.
  destruct (while_improved _ _ _ _ _ _) as [st|] eqn:Hw; [|discriminate].
  cbn [mbind option_bind] in Hr. injection Hr as <-.
  rewrite with_costs_tj, with_costs_tly.
  assert (Hr0 : reached heap rng loop path
            (Search path (route_hops heap rng loop path)
                    (route_dist heap rng loop path) true)).
  { split; [reflexivity|]. split; [reflexivity|]. split; reflexivity. }
  destruct (while_improved_better rng loop path _ _ _ _ Hr0 Hw) as [E|Hb];
    cbn [best] in *.
  - rewrite E. split; [lia|]. intros _. apply f_lt_irrefl.
  - unfold better, improves in Hb. apply orb_true_iff in Hb as [Hlt|Heq].
    + apply Z.ltb_lt in Hlt. split; [lia|]. intros E. lia.
    + apply andb_true_iff in Heq as [E L]. apply Z.eqb_eq in E.
      split; [lia|]. intros _. exact (f_lt_asym _ _ L).
Qed.
End TwoOptFacts.

Section ShortRoutes.
Context {F : Type} {ops : FloatOps F}.
Variable heap : ref → System F.
Variables (rng : F) (loop : bool) (n : nat).

Lemma k_fold_all_skipped (i : nat) (ks : list nat) (st : search F) :
  (∀ k, k ∈ ks → skipped loop n i k = true) →
  fold_left (k_body heap rng loop n i) ks st = st.
Proof.
  induction ks as [|k ks IH]; intros Hks; [reflexivity|].
  cbn [fold_left]. unfold k_body at 2. rewrite (Hks k) by left.
  apply IH. intros k' Hk'. apply Hks. right. exact Hk'.
Qed.

Lemma i_loop_all_skipped (rows : list nat) (st : search F) :
  improved st = false →
  (∀ i k, i ∈ rows → k ∈ range (i + 1) n → skipped loop n i k = true) →
  i_loop heap rng loop n rows st = st.
Proof.
  intros Hf. induction rows as [|i rows IH]; intros Hrows; [reflexivity|].
  cbn [i_loop]. unfold k_loop.
  rewrite k_fold_all_skipped by (intros k Hk; apply (Hrows i k); [left|exact Hk]).
  rewrite Hf. apply IH. intros i' k Hi'. apply Hrows. right. exact Hi'.
Qed.
End ShortRoutes.

(** X9. Short routes come back from [two_opt] as they went in, with
    their costs: routes of at most 3 systems, and in loop mode routes of
    at most 4 systems, for which a pass has no move to try. *)
Theorem two_opt_short_unchanged {F : Type} {ops : FloatOps F}
    (heap : ref → System F) (path : list ref) (rng : F) (loop : bool) :
  (length path ≤ 3)%nat ∨ (loop = true ∧ (length path ≤ 4)%nat) →
  two_opt heap path rng loop = Some (with_costs heap rng loop path).
Proof.
  intros Hshort. rewrite two_opt_unfold. cbn [while_improved].
  unfold pass. cbn [best best_j best_ly].
  rewrite i_loop_all_skipped; [reflexivity|reflexivity|].
  intros i k Hi Hk. apply range_elem in Hi, Hk.
  destruct Hshort as [Hlen|[-> Hlen]]; [lia|].
  unfold skipped. assert (i = 1%nat) as -> by lia. reflexivity.
Qed.

(** ** [solve]: which systems the returned route holds *)

Section SolveFacts.
Context {F : Type} {ops : FloatOps F} {ord : FloatOrder F}.
Variable heap : ref → System F.
Variable set_iter : list ref → list ref.

(** Without loop back, [solve] returns what [two_opt] returns. *)
Lemma solve_open_unfold (systems : list ref) (rng : F) (fil : bool)
    (start sl : ref) :
  (2 ≤ length systems)%nat → head systems = Some start →
  last systems = Some sl →
  solve heap set_iter systems rng false fil
  = two_opt heap
      (nearest_neighbor heap set_iter
         (filter (λ s, Some s ≠ (if fil then Some sl else None)) systems)
         start (if fil then Some sl else None) rng)
      rng false.
Proof.
  intros Hlen Hh Hl. unfold solve.
  apply Nat.ltb_ge in Hlen. rewrite Hlen, Hh, Hl.
  cbv beta iota zeta delta [negb andb].
  destruct (two_opt _ _ _ _) as [[[[[p js] tj] tly] ds]|]; [|reflexivity].
  cbn [mbind option_bind]. destruct (head p), (last p); reflexivity.
Qed.

Lemma short_list_NoDup (l : list ref) : (length l < 2)%nat → NoDup l.
Proof.
  destruct l as [|a [|b l]]; cbn [length]; intros Hlen; [| |lia].
  - apply NoDup_nil_2.
  - apply NoDup_singleton.
Qed.

(** The greedy route starts with [start] unless [start] is the fixed end. *)
Lemma nearest_neighbor_head (systems : list ref) (start : ref)
    (fixed_end : option ref) (rng : F) :
  fixed_end ≠ Some start →
  head (nearest_neighbor heap set_iter systems start fixed_end rng)
  = Some start.
Proof.
  intros Hfe. unfold nearest_neighbor.
  destruct (nn_loop_ext heap rng
              (length (set_iter (filter (λ s, s ≠ start) (remove_dups systems))))
              (set_iter (filter (λ s, s ≠ start) (remove_dups systems)))
              [start] start) as (ext & -> & _).
  destruct fixed_end as [fe|]; [|reflexivity].
  destruct (decide (last ([start] ++ ext) ≠ Some fe)); [|reflexivity].
  cbn [app remove_first].
  destruct (decide (start = fe)) as [->|_]; [destruct Hfe; reflexivity|].
  reflexivity.
Qed.

(** X10. An input of fewer than 2 systems is returned as it is, with no
    leg and totals zero, whatever the two flags are.  Without loop back,
    the route [solve] returns starts with the first input system,
    provided the fixed end is not that same system ([final_is_last] off,
    or first and last input system different). *)
Theorem solve_open_starts_at_first (systems : list ref) (rng : F) (fil : bool) :
  ((length systems < 2)%nat →
   ∀ loop_back,
     solve heap set_iter systems rng loop_back fil
     = Some (systems, [], 0, f_zero, [])) ∧
  (fil = false ∨ head systems ≠ last systems →
   ∃ r, solve heap set_iter systems rng false fil = Some r ∧
        head (res_path r) = head systems).
Proof.
  split.
  { intros Hshort loop_back. unfold solve.
    apply Nat.ltb_lt in Hshort. rewrite Hshort. reflexivity. }
  intros Hcond.
  destruct (decide (length systems < 2)%nat) as [Hshort|Hlen].
  { exists (systems, [], 0, f_zero, []). unfold solve.
    apply Nat.ltb_lt in Hshort. rewrite Hshort. split; reflexivity. }
  assert (Hlen' : (2 ≤ length systems)%nat) by lia.
  destruct systems as [|start rest] eqn:Hsys; [cbn in Hlen'; lia|].
  rewrite <- Hsys in *.
  assert (Hh : head systems = Some start) by (subst; reflexivity).
  destruct (last systems) as [sl|] eqn:Hl;
    [|apply last_None in Hl; rewrite Hl in Hh; discriminate].
  rewrite (solve_open_unfold systems rng fil start sl Hlen' Hh Hl).
  destruct (two_opt_search heap
              (nearest_neighbor heap set_iter
                 (filter (λ s, Some s ≠ (if fil then Some sl else None)) systems)
                 start (if fil then Some sl else None) rng) rng false)
    as (p & Hr & _ & Hhead & _).
  eexists. split; [exact Hr|]. rewrite with_costs_path, Hhead, Hh.
  apply nearest_neighbor_head.
  destruct fil; [|discriminate].
  destruct Hcond as [?|Hne]; [discriminate|].
  intros E. apply Hne. rewrite Hh. exact (eq_sym E).
Qed.

Hypothesis set_iter_perm : ∀ l, set_iter l ≡ₚ l.

Lemma solve_open_visits_once_aux (systems : list ref) (rng : F) (fil : bool) :
  ∃ r, solve heap set_iter systems rng false fil = Some r ∧
       NoDup (res_path r) ∧
       ∀ s, s ∈ res_path r ↔ s ∈ systems.
Proof.
  destruct (decide (length systems < 2)%nat) as [Hshort|Hlen].
  { exists (systems, [], 0, f_zero, []). unfold solve.
    pose proof (short_list_NoDup systems Hshort) as Hnd.
    apply Nat.ltb_lt in Hshort. rewrite Hshort.
    split; [reflexivity|]. split; [exact Hnd|]. intros s. reflexivity. }
  assert (Hlen' : (2 ≤ length systems)%nat) by lia.
  destruct systems as [|start rest] eqn:Hsys; [cbn in Hlen'; lia|].
  rewrite <- Hsys in *.
  assert (Hh : head systems = Some start) by (subst; reflexivity).
  destruct (last systems) as [sl|] eqn:Hl;
    [|apply last_None in Hl; rewrite Hl in Hh; discriminate].
  rewrite (solve_open_unfold systems rng fil start sl Hlen' Hh Hl).
  set (fe := if fil then Some sl else None).
  destruct (two_opt_search heap
              (nearest_neighbor heap set_iter
                 (filter (λ s, Some s ≠ fe) systems) start fe rng) rng false)
    as (p & Hr & Hperm & _ & _).
  destruct (nearest_neighbor_visits_once_aux heap set_iter set_iter_perm
              (filter (λ s, Some s ≠ fe) systems) start fe rng) as [Hnd Hin].
  eexists. split; [exact Hr|]. rewrite with_costs_path.
  split; [rewrite Hperm; exact Hnd|].
  intros s. rewrite Hperm, Hin, list_elem_of_filter.
  assert (Hstart : start ∈ systems) by (apply head_Some_elem_of; exact Hh).
  assert (Hsl : sl ∈ systems) by (apply last_Some_elem_of; exact Hl).
  split.
  - intros [->|[[_ Hs]|Hs]]; [exact Hstart|exact Hs|].
    unfold fe in Hs. destruct fil; [|discriminate]. injection Hs as <-.
    exact Hsl.
  - intros Hs. destruct (decide (Some s = fe)) as [E|Hne].
    + right. right. symmetry. exact E.
    + right. left. split; [exact Hne|exact Hs].
Qed.

(** X11. Without loop back, the route [solve] returns holds every input
    system exactly once: no system twice, none left out, none added (an
    input reference given several times is visited once). *)
Theorem solve_open_visits_once (systems : list ref) (rng : F) (fil : bool) :
  ∃ r, solve heap set_iter systems rng false fil = Some r ∧
       NoDup (res_path r) ∧
       ∀ s, s ∈ res_path r ↔ s ∈ systems.
Proof. exact (solve_open_visits_once_aux systems rng fil). Qed.

(** X12. With loop back and at least 2 input systems, the route [solve]
    returns is a tour: a route [p] that starts with the first input system
    and holds every input system exactly once, followed by the first
    input system again (or that system alone, when every input reference
    is the same system). *)
Theorem solve_loop_tour (systems : list ref) (rng : F) (fil : bool)
    (start : ref) :
  (2 ≤ length systems)%nat → head systems = Some start →
  ∃ r p, solve heap set_iter systems rng true fil = Some r ∧
         head p = Some start ∧ NoDup p ∧ (∀ s, s ∈ p ↔ s ∈ systems) ∧
         (res_path r = p ++ [start] ∨ (p = [start] ∧ res_path r = [start])).
Proof.
  intros Hlen Hh.
  destruct (two_opt_search heap
              (nearest_neighbor heap set_iter systems start None rng) rng true)
    as (p & Hr & Hperm & Hhp & _).
  destruct (nearest_neighbor_visits_once_aux heap set_iter set_iter_perm
              systems start None rng) as [Hnd Hin].
  rewrite (nearest_neighbor_head systems start None rng) in Hhp by discriminate.
  rewrite <- Hperm in Hnd.
  assert (Hp : ∀ s, s ∈ p ↔ s ∈ systems).
  { intros s. rewrite Hperm, Hin.
    assert (Hstart : start ∈ systems) by (apply head_Some_elem_of; exact Hh).
    split; [intros [->|[?|?]]; [assumption|assumption|discriminate]|tauto]. }
  rewrite (solve_loop_unfold heap set_iter systems rng fil start p Hlen Hh Hr).
  rewrite Hhp.
  destruct p as [|p0 q]; [discriminate|]. injection Hhp as ->.
  destruct q as [|q1 q].
  - cbn [last].
    rewrite bool_decide_eq_false_2 by (intros Hne; apply Hne; reflexivity).
    eexists. exists [start]. split; [reflexivity|].
    rewrite with_costs_path. auto 6.
  - destruct (last (start :: q1 :: q)) as [pl|] eqn:Hl;
      [|apply last_None in Hl; discriminate].
    assert (Hpl : start ≠ pl).
    { intros <-. apply NoDup_cons in Hnd as [Hnot _]. apply Hnot.
      rewrite last_cons_cons in Hl. exact (last_Some_elem_of _ _ Hl). }
    rewrite bool_decide_eq_true_2 by exact Hpl.
    eexists. exists (start :: q1 :: q). split; [reflexivity|].
    split; [reflexivity|]. split; [exact Hnd|]. split; [exact Hp|].
    left. reflexivity.
Qed.
End SolveFacts.

(** ** [print_route] and [save_csv] on what [solve] returns *)

Lemma enumerate1_lookup {A} (l : list A) (idx : nat) :
  enumerate1 l !! idx = (λ a, (S idx, a)) <$> l !! idx.
Proof.
  unfold enumerate1. rewrite lookup_zip_with.
  destruct (l !! idx) as [a|] eqn:E.
  - rewrite lookup_seq_lt by (apply lookup_lt_Some in E; exact E).
    reflexivity.
  - destruct (seq 1 (length l) !! idx); reflexivity.
Qed.

Lemma enumerate1_length {A} (l : list A) : length (enumerate1 l) = length l.
Proof.
  unfold enumerate1. rewrite length_zip_with, length_seq. lia.
Qed.

Lemma enumerate1_snd {A} (l : list A) : (enumerate1 l).*2 = l.
Proof. unfold enumerate1. apply snd_zip. rewrite length_seq. lia. Qed.

Section ReportFacts.
Context {F : Type} {ops : FloatOps F}.
Variable heap : ref → System F.

(** The marker [print_route] puts on line [i] of a route of [n] systems. *)
Lemma print_fold (path : list ref) (es : list (nat * (ref * Z)))
    (acc : F * list (route_line F)) :
  ∃ lines,
    (fold_left (print_line heap path) es acc).2 = acc.2 ++ lines ∧
    Forall2 (λ e line,
               line_no line = e.1 ∧ line_name line = name (heap e.2.1) ∧
               line_jumps line = e.2.2 ∧
               line_marker line
               = if (e.1 =? 1)%nat then START
                 else if (e.1 =? length path)%nat then END_LOOP
                 else NO_MARKER)
            es lines.
Proof.
  revert acc. induction es as [|e es IH]; intros acc.
  - exists []. cbn [fold_left]. rewrite app_nil_r. split; [reflexivity|].
    apply Forall2_nil_2.
  - cbn [fold_left].
    destruct (IH (print_line heap path acc e)) as (lines & E & Hall).
    destruct acc as [cum out]. destruct e as [i [s j]].
    cbn [print_line snd] in E. rewrite <- app_assoc in E. cbn [app] in E.
    eexists. split; [exact E|].
    apply Forall2_cons. split; [|exact Hall]. cbn [fst snd line_no line_name
      line_jumps line_marker]. auto.
Qed.

Lemma print_route_lines_aux (path : list ref) (jumps : list Z) (tj : Z) (tly : F) :
  let lines := (print_route heap path jumps tj tly).1 in
  length lines = min (length path) (length jumps) ∧
  ∀ idx line, lines !! idx = Some line →
    line_no line = S idx ∧
    (∃ s, path !! idx = Some s ∧ line_name line = name (heap s)) ∧
    jumps !! idx = Some (line_jumps line) ∧
    (line_marker line = START ↔ idx = 0%nat) ∧
    (line_marker line = END_LOOP ↔ idx ≠ 0%nat ∧ S idx = length path).
Proof.
  unfold print_route. cbn [fst].
  destruct (print_fold path (enumerate1 (zip path jumps)) (f_zero, []))
    as (lines & -> & Hall).
  cbn [snd app]. split.
  - rewrite <- (Forall2_length _ _ _ Hall), enumerate1_length, length_zip_with.
    reflexivity.
  - intros idx line Hline.
    destruct (Forall2_lookup_r _ _ _ _ _ Hall Hline) as ([i [s j]] & He & Hl).
    rewrite enumerate1_lookup in He.
    destruct (zip path jumps !! idx) as [[s' j']|] eqn:Hz; [|discriminate].
    injection He as <- <- <-.
    apply lookup_zip_with_Some in Hz as (s'' & j'' & E & Hs & Hj).
    injection E as <- <-.
    cbn [fst snd] in Hl. destruct Hl as (Hno & Hname & Hjs & Hmk).
    split; [exact Hno|]. split; [exists s'; split; assumption|].
    split; [rewrite Hjs; exact Hj|].
    rewrite Hmk. change (S idx =? 1)%nat with (idx =? 0)%nat.
    destruct (Nat.eqb_spec idx 0) as [->|Hne].
    + split; split; try reflexivity; try discriminate.
      intros [Hne _]. destruct Hne. reflexivity.
    + destruct (Nat.eqb_spec (S idx) (length path)) as [E|Hne'].
      * split; split; try discriminate; try tauto.
      * split; split; try discriminate; try tauto.
Qed.

(** X13. [print_route] prints one line per pair of [zip(path, jumps)],
    so as many lines as the shorter of the two lists has entries; line
    number [i] shows the name of the [i]-th system of the route and the
    [i]-th entry of [jumps]; the first line is marked START, and a line is
    marked END/LOOP exactly when it is not the first and its number is the
    length of the route. *)
Theorem print_route_lines (path : list ref) (jumps : list Z) (tj : Z) (tly : F) :
  let lines := (print_route heap path jumps tj tly).1 in
  length lines = min (length path) (length jumps) ∧
  ∀ idx line, lines !! idx = Some line →
    line_no line = S idx ∧
    (∃ s, path !! idx = Some s ∧ line_name line = name (heap s)) ∧
    jumps !! idx = Some (line_jumps line) ∧
    (line_marker line = START ↔ idx = 0%nat) ∧
    (line_marker line = END_LOOP ↔ idx ≠ 0%nat ∧ S idx = length path).
Proof. exact (print_route_lines_aux path jumps tj tly). Qed.
End ReportFacts.

Lemma NoDup_head_last (l : list ref) (a b : ref) :
  NoDup l → (2 ≤ length l)%nat → head l = Some a → last l = Some b → a ≠ b.
Proof.
  intros Hnd Hlen Hh Hl.
  destruct l as [|a' [|c l]]; cbn [length] in Hlen; [lia|lia|].
  injection Hh as ->. rewrite last_cons_cons in Hl.
  apply NoDup_cons in Hnd as [Hnot _]. intros ->. apply Hnot.
  exact (last_Some_elem_of _ _ Hl).
Qed.

Section SolveResults.
Context {F : Type} {ops : FloatOps F} {ord : FloatOrder F}.
Variable heap : ref → System F.
Variable set_iter : list ref → list ref.

Lemma with_costs_jumps (rng : F) (loop : bool) (p : list ref) :
  res_jumps (with_costs heap rng loop p) = leg_hops heap rng loop p.
Proof.
  unfold with_costs, leg_hops.
  destruct (total_cost _ _ _ _) as [[[? ?] ?] ?]. reflexivity.
Qed.

Lemma with_costs_dists (rng : F) (loop : bool) (p : list ref) :
  res_dists (with_costs heap rng loop p) = leg_dists heap rng loop p.
Proof.
  unfold with_costs, leg_dists.
  destruct (total_cost _ _ _ _) as [[[? ?] ?] ?]. reflexivity.
Qed.

(** Without loop back, [solve] returns a route with its open costs. *)
Lemma solve_open_result (systems : list ref) (rng : F) (fil : bool) :
  ∃ p, solve heap set_iter systems rng false fil
       = Some (with_costs heap rng false p).
Proof.
  destruct (decide (length systems < 2)%nat) as [Hshort|Hlen].
  { exists systems. unfold solve, with_costs.
    rewrite (total_cost_lt2 heap rng systems false Hshort).
    apply Nat.ltb_lt in Hshort. rewrite Hshort. reflexivity. }
  assert (Hlen' : (2 ≤ length systems)%nat) by lia.
  destruct systems as [|start rest] eqn:Hsys; [cbn in Hlen'; lia|].
  rewrite <- Hsys in *.
  assert (Hh : head systems = Some start) by (subst; reflexivity).
  destruct (last systems) as [sl|] eqn:Hl;
    [|apply last_None in Hl; rewrite Hl in Hh; discriminate].
  rewrite (solve_open_unfold heap set_iter systems rng fil start sl Hlen' Hh Hl).
  destruct (two_opt_search heap
              (nearest_neighbor heap set_iter
                 (filter (λ s, Some s ≠ (if fil then Some sl else None)) systems)
                 start (if fil then Some sl else None) rng) rng false)
    as (p & Hr & _).
  exists p. exact Hr.
Qed.

(** X14. After [solve] without loop back, the table of [print_route] has
    one line less than the route has systems: the last system of the
    route gets no line, and no line is marked END/LOOP. *)
Theorem print_route_open (systems : list ref) (rng : F) (fil : bool) :
  ∃ r, solve heap set_iter systems rng false fil = Some r ∧
    let lines :=
      (print_route heap (res_path r) (res_jumps r) (res_tj r) (res_tly r)).1 in
    length lines = (length (res_path r) - 1)%nat ∧
    ∀ line, line ∈ lines → line_marker line ≠ END_LOOP.
Proof.
  destruct (solve_open_result systems rng fil) as [p Hr].
  eexists. split; [exact Hr|].
  rewrite with_costs_path, with_costs_jumps. cbv zeta.
  destruct (print_route_lines_aux heap p (leg_hops heap rng false p)
              (res_tj (with_costs heap rng false p))
              (res_tly (with_costs heap rng false p))) as [Hcount Hline].
  destruct (total_cost_leg_counts_aux heap rng p false) as [Hj _].
  cbn [andb] in Hj.
  split; [rewrite Hcount, Hj; lia|].
  intros line Hin. apply list_elem_of_lookup in Hin as [idx Hidx].
  pose proof (lookup_lt_Some _ _ _ Hidx) as Hlt. rewrite Hcount, Hj in Hlt.
  destruct (Hline idx line Hidx) as (_ & _ & _ & _ & Hend).
  intros E. apply Hend in E. lia.
Qed.

Hypothesis set_iter_perm : ∀ l, set_iter l ≡ₚ l.

(** With loop back, [solve] returns either the start alone or a route
    closed by the start, with the closing leg appended to the lists. *)
Lemma solve_loop_result (systems : list ref) (rng : F) (fil : bool)
    (start : ref) :
  (2 ≤ length systems)%nat → head systems = Some start →
  ∃ p, head p = Some start ∧ NoDup p ∧ (∀ s, s ∈ p ↔ s ∈ systems) ∧
    ((p = [start] ∧
      solve heap set_iter systems rng true fil
      = Some (with_costs heap rng true [start])) ∨
     (∃ pl, (2 ≤ length p)%nat ∧ last p = Some pl ∧ start ≠ pl ∧
        solve heap set_iter systems rng true fil
        = Some (p ++ [start],
                leg_hops heap rng true p ++ [jumps_to (heap pl) (heap start) rng],
                route_hops heap rng true p, route_dist heap rng true p,
                leg_dists heap rng true p ++ [distance_to (heap pl) (heap start)]))).
Proof.
  intros Hlen Hh.
  destruct (two_opt_search heap
              (nearest_neighbor heap set_iter systems start None rng) rng true)
    as (p & Hr & Hperm & Hhp & _).
  destruct (nearest_neighbor_visits_once_aux heap set_iter set_iter_perm
              systems start None rng) as [Hnd Hin].
  rewrite (nearest_neighbor_head heap set_iter systems start None rng) in Hhp
    by discriminate.
  rewrite <- Hperm in Hnd.
  assert (Hp : ∀ s, s ∈ p ↔ s ∈ systems).
  { intros s. rewrite Hperm, Hin.
    assert (Hstart : start ∈ systems) by (apply head_Some_elem_of; exact Hh).
    split; [intros [->|[?|?]]; [assumption|assumption|discriminate]|tauto]. }
  exists p. split; [exact Hhp|]. split; [exact Hnd|]. split; [exact Hp|].
  rewrite (solve_loop_unfold heap set_iter systems rng fil start p Hlen Hh Hr).
  rewrite Hhp.
  destruct p as [|p0 q]; [discriminate|]. injection Hhp as ->.
  destruct q as [|q1 q].
  - left. cbn [last].
    rewrite bool_decide_eq_false_2 by (intros Hne; apply Hne; reflexivity).
    split; reflexivity.
  - right.
    destruct (last (start :: q1 :: q)) as [pl|] eqn:Hl;
      [|apply last_None in Hl; discriminate].
    assert (Hpl : start ≠ pl)
      by (apply (NoDup_head_last (start :: q1 :: q));
          [exact Hnd|cbn [length]; lia|reflexivity|exact Hl]).
    rewrite bool_decide_eq_true_2 by exact Hpl.
    exists pl. split; [cbn [length]; lia|]. split; [reflexivity|].
    split; [exact Hpl|reflexivity].
Qed.

(** With loop back, on input systems that are not all the first one,
    [solve] returns a route closed by the start, with the closing leg
    appended to the lists. *)
Lemma solve_loop_route (systems : list ref) (rng : F) (fil : bool)
    (start other : ref) :
  head systems = Some start → other ∈ systems → other ≠ start →
  ∃ p pl, head p = Some start ∧ NoDup p ∧ (∀ s, s ∈ p ↔ s ∈ systems) ∧
    (2 ≤ length p)%nat ∧ last p = Some pl ∧ start ≠ pl ∧
    solve heap set_iter systems rng true fil
    = Some (p ++ [start],
            leg_hops heap rng true p ++ [jumps_to (heap pl) (heap start) rng],
            route_hops heap rng true p, route_dist heap rng true p,
            leg_dists heap rng true p ++ [distance_to (heap pl) (heap start)]).
Proof.
  intros Hh Hin Hne.
  assert (Hlen : (2 ≤ length systems)%nat).
  { destruct systems as [|a [|b l]]; cbn [length]; [discriminate| |lia].
    injection Hh as ->. apply list_elem_of_singleton in Hin.
    destruct Hne. exact Hin. }
  destruct (solve_loop_result systems rng fil start Hlen Hh)
    as (p & Hhp & Hnd & Hp & [[-> _]|(pl & Hlp & Hl & Hpl & Hr)]).
  { exfalso. apply Hne, list_elem_of_singleton, Hp. exact Hin. }
  exists p, pl. auto 10.
Qed.

(** X15. After [solve] with loop back on input systems that are not all
    the first one, the table of [print_route] has one line per element
    of the closed route; its last line is marked END/LOOP, names the
    first input system, and shows the hops of the closing leg, from the
    system [pl] before it back to the start: the same number as on the
    line of [pl]. *)
Theorem print_route_loop (systems : list ref) (rng : F) (fil : bool)
    (start other : ref) :
  head systems = Some start → other ∈ systems → other ≠ start →
  ∃ r, solve heap set_iter systems rng true fil = Some r ∧
    let lines :=
      (print_route heap (res_path r) (res_jumps r) (res_tj r) (res_tly r)).1 in
    length lines = length (res_path r) ∧
    ∃ pl before closing,
      res_path r !! (length (res_path r) - 2)%nat = Some pl ∧
      lines !! (length lines - 2)%nat = Some before ∧
      last lines = Some closing ∧
      line_marker closing = END_LOOP ∧
      line_name closing = name (heap start) ∧
      line_name before = name (heap pl) ∧
      line_jumps closing = jumps_to (heap pl) (heap start) rng ∧
      line_jumps closing = line_jumps before.
Proof.
  intros Hh Hin Hother.
  destruct (solve_loop_route systems rng fil start other Hh Hin Hother)
    as (p & pl & Hhp & Hnd & Hp & Hlp & Hl & Hne & Hr).
  eexists. split; [exact Hr|].
  unfold res_path, res_jumps, res_tj, res_tly. cbn [fst snd]. cbv zeta.
  set (jc := jumps_to (heap pl) (heap start) rng).
  destruct (print_route_lines_aux heap (p ++ [start])
              (leg_hops heap rng true p ++ [jc])
              (route_hops heap rng true p) (route_dist heap rng true p))
    as [Hcount Hline].
  destruct (total_cost_leg_counts_aux heap rng p true) as [Hj _].
  assert (E2 : (2 <=? length p)%nat = true) by (apply Nat.leb_le; exact Hlp).
  rewrite E2 in Hj. cbn [andb] in Hj.
  assert (Hjl : leg_hops heap rng true p !! (length p - 1)%nat = Some jc).
  { unfold leg_hops.
    rewrite (total_cost_loop heap rng p start pl Hlp Hhp Hl).
    destruct (open_leg_counts heap rng p Hlp) as [Hjo _].
    revert Hjo. unfold leg_hops.
    destruct (total_cost heap p rng false) as [[[tj js] tly] ds].
    cbn [add_leg fst snd]. intros Hjo.
    rewrite lookup_app_r by lia. rewrite Hjo, Nat.sub_diag. reflexivity. }
  assert (Hpl : (p ++ [start]) !! (length p - 1)%nat = Some pl).
  { rewrite lookup_app_l by lia.
    replace (length p - 1)%nat with (pred (length p)) by lia.
    rewrite <- last_lookup. exact Hl. }
  rewrite !length_app in Hcount. cbn [length] in Hcount. rewrite Hj in Hcount.
  assert (Hn : length (print_route heap (p ++ [start])
                    (leg_hops heap rng true p ++ [jc])
                    (route_hops heap rng true p) (route_dist heap rng true p)).1
               = (length p + 1)%nat) by lia.
  split; [rewrite length_app; cbn [length]; exact Hn|].
  set (lines := (print_route heap (p ++ [start])
                   (leg_hops heap rng true p ++ [jc])
                   (route_hops heap rng true p) (route_dist heap rng true p)).1)
    in *.
  destruct (lookup_lt_is_Some_2 lines (length p - 1)%nat ltac:(lia))
    as [before Hb].
  destruct (lookup_lt_is_Some_2 lines (length p) ltac:(lia)) as [closing Hc].
  exists pl, before, closing.
  split; [rewrite length_app; cbn [length];
          replace (length p + 1 - 2)%nat with (length p - 1)%nat by lia;
          exact Hpl|].
  split; [rewrite Hn; replace (length p + 1 - 2)%nat with (length p - 1)%nat by lia;
          exact Hb|].
  split; [rewrite last_lookup, Hn;
          replace (pred (length p + 1)) with (length p) by lia; exact Hc|].
  destruct (Hline _ _ Hc) as (_ & (s & Hs & Hname) & Hjc & _ & Hend).
  destruct (Hline _ _ Hb) as (_ & (sb & Hsb & Hnameb) & Hjb & _).
  rewrite lookup_app_r in Hjc by lia. rewrite Hj, Nat.sub_diag in Hjc.
  rewrite lookup_app_l in Hjb by lia. rewrite Hjl in Hjb.
  cbn in Hjc.
  split; [apply Hend; rewrite length_app; cbn [length]; lia|].
  split.
  { rewrite lookup_app_r in Hs by lia. rewrite Nat.sub_diag in Hs.
    injection Hs as <-. exact Hname. }
  split; [rewrite Hpl in Hsb; injection Hsb as <-; exact Hnameb|].
  injection Hjc as <-. injection Hjb as <-. split; reflexivity.
Qed.

(** X16. On input systems that are all different (as [load_systems]
    builds them, one object per row), the summary line of [print_route]
    after [solve] shows the number of input systems as systems visited,
    with or without loop back, except for a single input system, where it
    shows 0. *)
Theorem print_route_systems_visited (systems : list ref) (rng : F)
    (loop_back fil : bool) :
  NoDup systems →
  ∃ r, solve heap set_iter systems rng loop_back fil = Some r ∧
    (print_route heap (res_path r) (res_jumps r) (res_tj r) (res_tly r)).2.1.1
    = if (length systems =? 1)%nat then 0%nat else length systems.
Proof.
  intros Hnd.
  destruct (decide (length systems < 2)%nat) as [Hshort|Hlen].
  { exists (systems, [], 0, f_zero, []). unfold solve.
    assert (E : (length systems <? 2)%nat = true) by (apply Nat.ltb_lt; exact Hshort).
    rewrite E. split; [reflexivity|].
    destruct systems as [|a [|b l]]; cbn [length] in Hshort; [| |lia].
    - reflexivity.
    - unfold print_route, res_path. cbn [fst snd head last length].
      destruct (decide (a = a)) as [_|Hne]; [reflexivity|destruct Hne; reflexivity]. }
  assert (Hlen' : (2 ≤ length systems)%nat) by lia.
  assert (Hne1 : (length systems =? 1)%nat = false) by (apply Nat.eqb_neq; lia).
  rewrite Hne1.
  destruct loop_back.
  - destruct systems as [|start rest] eqn:Hsys; [cbn in Hlen'; lia|].
    rewrite <- Hsys in *.
    assert (Hh : head systems = Some start) by (subst; reflexivity).
    destruct (solve_loop_result systems rng fil start Hlen' Hh)
      as (p & Hhp & Hndp & Hp & Hcase).
    assert (Hlp : length p = length systems)
      by (apply Permutation_length, NoDup_Permutation; assumption).
    destruct Hcase as [[-> _]|(pl & _ & Hl & _ & Hr)];
      [cbn [length] in Hlp; lia|].
    eexists. split; [exact Hr|].
    unfold print_route, res_path. cbn [fst snd].
    destruct p as [|p0 q]; [discriminate|]. injection Hhp as ->.
    cbn [app head]. change (start :: q ++ [start]) with ((start :: q) ++ [start]).
    rewrite last_snoc, length_app, Hlp. cbn [length].
    destruct (decide (start = start)) as [_|Hne]; [lia|destruct Hne; reflexivity].
  - destruct (solve_open_visits_once_aux heap set_iter set_iter_perm systems rng fil)
      as (r & Hr & Hndr & Hin).
    exists r. split; [exact Hr|].
    assert (Hlr : length (res_path r) = length systems)
      by (apply Permutation_length, NoDup_Permutation; assumption).
    unfold print_route. cbn [fst snd].
    destruct (head (res_path r)) as [p0|] eqn:Hh0; [|lia].
    destruct (last (res_path r)) as [pl|] eqn:Hl0; [|lia].
    destruct (decide (p0 = pl)) as [E|_]; [|lia].
    exfalso. revert E.
    apply (NoDup_head_last (res_path r)); [exact Hndr|lia|exact Hh0|exact Hl0].
Qed.
End SolveResults.

(** ** [save_csv]: running totals *)

Section CsvFacts.
Context {F : Type} {ops : FloatOps F} {ord : FloatOrder F}.
Variable heap : ref → System F.
Variable round3 : F → F.
Variable set_iter : list ref → list ref.

(** The loop of [save_csv] adds one row per triple, in order; the totals
    of a row are those the loop started with plus everything up to and
    including that row. *)
Lemma csv_fold (es : list (nat * (ref * (Z * F))))
    (acc : Z * F * list (csv_row F)) :
  ∃ rows,
    (fold_left (csv_line heap round3) es acc).2 = acc.2 ++ rows ∧
    length rows = length es ∧
    ∀ idx row, rows !! idx = Some row →
      ∃ e, es !! idx = Some e ∧
        csv_step row = e.1 ∧ csv_system row = name (heap e.2.1) ∧
        csv_jumps row = e.2.2.1 ∧
        csv_total_jumps row
          = fold_left Z.add (take (S idx) es).*2.*2.*1 acc.1.1 ∧
        csv_total_ly row
          = round3 (fold_left f_add (take (S idx) es).*2.*2.*2 acc.1.2).
Proof.
  revert acc. induction es as [|e es IH]; intros acc.
  - exists []. cbn [fold_left length]. rewrite app_nil_r.
    split; [reflexivity|]. split; [reflexivity|].
    intros idx row Hrow. rewrite lookup_nil in Hrow. discriminate.
  - cbn [fold_left].
    destruct (IH (csv_line heap round3 acc e)) as (rows & E & Hlen & Hrows).
    destruct acc as [[tj tly] out]. destruct e as [i [s [j d]]].
    cbn [csv_line fst snd] in E, Hrows. rewrite <- app_assoc in E.
    cbn [app] in E.
    eexists. split; [exact E|]. split; [cbn [length]; rewrite Hlen; reflexivity|].
    intros [|idx] row Hrow.
    + injection Hrow as <-. eexists. split; [reflexivity|].
      cbn. auto 6.
    + cbn [lookup list_lookup] in Hrow.
      destruct (Hrows idx row Hrow) as (e' & He' & H1 & H2 & H3 & H4 & H5).
      exists e'. split; [exact He'|]. auto 6.
Qed.

Lemma save_csv_rows_aux (path : list ref) (jumps : list Z) (dists : list F)
    (tj : Z) (tly : F) :
  length jumps = length dists → (length jumps ≤ length path)%nat →
  let rows := save_csv heap round3 path jumps dists tj tly in
  length rows = length jumps ∧
  ∀ idx row, rows !! idx = Some row →
    csv_step row = S idx ∧
    (∃ s, path !! idx = Some s ∧ csv_system row = name (heap s)) ∧
    jumps !! idx = Some (csv_jumps row) ∧
    csv_total_jumps row = fold_left Z.add (take (S idx) jumps) 0 ∧
    csv_total_ly row = round3 (fold_left f_add (take (S idx) dists) f_zero).
Proof.
  intros Hjd Hjp. unfold save_csv.
  set (triples := zip path (zip jumps dists)).
  assert (Hzl : length (zip jumps dists) = length jumps)
    by (rewrite length_zip_with; lia).
  assert (Htl : length triples = length jumps)
    by (unfold triples; rewrite length_zip_with, Hzl; lia).
  destruct (csv_fold (enumerate1 triples) (0, f_zero, []))
    as (rows & -> & Hlen & Hrows).
  cbn [snd app fst] in *. rewrite enumerate1_length, Htl in Hlen.
  split; [exact Hlen|].
  intros idx row Hrow.
  destruct (Hrows idx row Hrow) as ([i [s [j d]]] & He & H1 & H2 & H3 & H4 & H5).
  rewrite enumerate1_lookup in He.
  destruct (triples !! idx) as [[s' [j' d']]|] eqn:Ht; [|discriminate].
  injection He as <- <- <- <-.
  unfold triples in Ht.
  apply lookup_zip_with_Some in Ht as (s'' & jd & E & Hs & Hjd').
  injection E as <- <-.
  apply lookup_zip_with_Some in Hjd' as (j'' & d'' & E & Hj & Hd).
  injection E as <- <-.
  cbn [fst snd] in H1, H2, H3.
  assert (Hproj2 : (take (S idx) (enumerate1 triples)).*2.*2
                   = take (S idx) (zip jumps dists)).
  { rewrite !fmap_take, enumerate1_snd. unfold triples.
    rewrite snd_zip by lia. reflexivity. }
  rewrite Hproj2 in H4, H5.
  rewrite fmap_take, fst_zip in H4 by lia.
  rewrite fmap_take, snd_zip in H5 by lia.
  split; [exact H1|]. split; [exists s'; split; assumption|].
  split; [rewrite H3; exact Hj|]. split; assumption.
Qed.

(** X17. For per-leg lists of one length, not longer than the route (as
    [solve] returns them), [save_csv] writes one data row per list entry;
    row number [i] carries the [i]-th system of the route and the [i]-th
    hop count, and its Total_Jumps and Total_LY are the sums of the first
    [i] entries of the two lists (the distance rounded after summing).
    The totals passed to [save_csv] are not used. *)
Theorem save_csv_rows (path : list ref) (jumps : list Z) (dists : list F)
    (tj : Z) (tly : F) :
  length jumps = length dists → (length jumps ≤ length path)%nat →
  let rows := save_csv heap round3 path jumps dists tj tly in
  length rows = length jumps ∧
  ∀ idx row, rows !! idx = Some row →
    csv_step row = S idx ∧
    (∃ s, path !! idx = Some s ∧ csv_system row = name (heap s)) ∧
    jumps !! idx = Some (csv_jumps row) ∧
    csv_total_jumps row = fold_left Z.add (take (S idx) jumps) 0 ∧
    csv_total_ly row = round3 (fold_left f_add (take (S idx) dists) f_zero).
Proof. exact (save_csv_rows_aux path jumps dists tj tly). Qed.

(** X18. After [solve] without loop back, [save_csv] writes one row less
    than the route has systems (the last system of the route gets no
    row), and the totals in the last row are the totals [solve] returned
    (the distance rounded). *)
Theorem save_csv_open (systems : list ref) (rng : F) (fil : bool) :
  ∃ r, solve heap set_iter systems rng false fil = Some r ∧
    let rows :=
      save_csv heap round3 (res_path r) (res_jumps r) (res_dists r)
               (res_tj r) (res_tly r) in
    length rows = (length (res_path r) - 1)%nat ∧
    ∀ row, last rows = Some row →
      csv_total_jumps row = res_tj r ∧ csv_total_ly row = round3 (res_tly r).
Proof.
  destruct (solve_open_result heap set_iter systems rng fil) as [p Hr].
  eexists. split; [exact Hr|].
  rewrite with_costs_path, with_costs_jumps, with_costs_dists,
    with_costs_tj, with_costs_tly. cbv zeta.
  destruct (total_cost_leg_counts_aux heap rng p false) as [Hj Hd].
  cbn [andb] in Hj, Hd.
  destruct (save_csv_rows_aux p (leg_hops heap rng false p)
              (leg_dists heap rng false p) (route_hops heap rng false p)
              (route_dist heap rng false p)) as [Hcount Hrows];
    [rewrite Hj, Hd; reflexivity|rewrite Hj; lia|].
  split; [rewrite Hcount, Hj; reflexivity|].
  intros row Hlast. rewrite last_lookup in Hlast.
  pose proof (lookup_lt_Some _ _ _ Hlast) as Hlt.
  destruct (Hrows _ _ Hlast) as (_ & _ & _ & Htj & Htly).
  rewrite take_ge in Htj by lia. rewrite take_ge in Htly by lia.
  destruct (total_cost_sums_aux heap rng p false) as [Hsj Hsd].
  rewrite Htj, Htly, Hsj, Hsd. split; reflexivity.
Qed.

Hypothesis set_iter_perm : ∀ l, set_iter l ≡ₚ l.

(** X19. After [solve] with loop back on input systems that are not all
    the first one, [save_csv] writes one row per element of the closed
    route, and the Total_Jumps and Total_LY of its last row are the
    totals [solve] returned plus the closing leg once more: the file
    counts the leg from the last system [pl] back to the start twice. *)
Theorem save_csv_loop (systems : list ref) (rng : F) (fil : bool)
    (start other : ref) :
  head systems = Some start → other ∈ systems → other ≠ start →
  ∃ r, solve heap set_iter systems rng true fil = Some r ∧
    let rows :=
      save_csv heap round3 (res_path r) (res_jumps r) (res_dists r)
               (res_tj r) (res_tly r) in
    length rows = length (res_path r) ∧
    ∃ pl row,
      res_path r !! (length (res_path r) - 2)%nat = Some pl ∧
      last rows = Some row ∧
      csv_system row = name (heap start) ∧
      csv_total_jumps row = res_tj r + jumps_to (heap pl) (heap start) rng ∧
      csv_total_ly row
        = round3 (f_add (res_tly r) (distance_to (heap pl) (heap start))).
Proof.
  intros Hh Hin Hother.
  destruct (solve_loop_route heap set_iter set_iter_perm systems rng fil
              start other Hh Hin Hother)
    as (p & pl & Hhp & Hnd & Hp & Hlp & Hl & Hne & Hr).
  eexists. split; [exact Hr|].
  unfold res_path, res_jumps, res_dists, res_tj, res_tly. cbn [fst snd].
  cbv zeta.
  set (jc := jumps_to (heap pl) (heap start) rng).
  set (dc := distance_to (heap pl) (heap start)).
  destruct (total_cost_leg_counts_aux heap rng p true) as [Hj Hd].
  assert (E2 : (2 <=? length p)%nat = true) by (apply Nat.leb_le; exact Hlp).
  rewrite E2 in Hj, Hd. cbn [andb] in Hj, Hd.
  destruct (save_csv_rows_aux (p ++ [start]) (leg_hops heap rng true p ++ [jc])
              (leg_dists heap rng true p ++ [dc]) (route_hops heap rng true p)
              (route_dist heap rng true p)) as [Hcount Hrows];
    [rewrite !length_app, Hj, Hd; reflexivity
    |rewrite !length_app, Hj; cbn [length]; lia|].
  rewrite length_app, Hj in Hcount. cbn [length] in Hcount.
  split; [rewrite Hcount, length_app; reflexivity|].
  set (rows := save_csv heap round3 (p ++ [start])
                 (leg_hops heap rng true p ++ [jc])
                 (leg_dists heap rng true p ++ [dc])
                 (route_hops heap rng true p) (route_dist heap rng true p)) in *.
  destruct (lookup_lt_is_Some_2 rows (length p) ltac:(lia)) as [row Hrow].
  exists pl, row.
  split.
  { rewrite length_app. cbn [length].
    replace (length p + 1 - 2)%nat with (pred (length p)) by lia.
    rewrite lookup_app_l by lia. rewrite <- last_lookup. exact Hl. }
  split.
  { rewrite last_lookup, Hcount.
    replace (pred (length p + 1)) with (length p) by lia. exact Hrow. }
  destruct (Hrows _ _ Hrow) as (_ & (s & Hs & Hname) & _ & Htj & Htly).
  split.
  { rewrite lookup_app_r in Hs by lia. rewrite Nat.sub_diag in Hs.
    injection Hs as <-. exact Hname. }
  rewrite take_ge in Htj by (rewrite length_app; cbn [length]; lia).
  rewrite take_ge in Htly by (rewrite length_app; cbn [length]; lia).
  rewrite fold_left_app in Htj, Htly. cbn [fold_left] in Htj, Htly.
  destruct (total_cost_sums_aux heap rng p true) as [Hsj Hsd].
  rewrite Htj, Htly, Hsj, Hsd. split; reflexivity.
Qed.
End CsvFacts.

(** ** [System.__init__] and [load_systems] *)

Lemma lstrip_first (c : ascii) (s : string) :
  first_char (lstrip c s) ≠ Some c.
Proof.
  induction s as [|a s IH]; [discriminate|]. cbn [lstrip].
  destruct (Ascii.eqb_spec a c) as [->|Hne]; [exact IH|].
  cbn [first_char]. congruence.
Qed.

Lemma rstrip_first (c : ascii) (s : string) :
  first_char s ≠ Some c → first_char (rstrip c s) ≠ Some c.
Proof.
  destruct s as [|a s]; [discriminate|]. cbn [first_char rstrip]. intros Hne.
  destruct (rstrip c s).
  - destruct (Ascii.eqb_spec a c) as [->|_]; [congruence|exact Hne].
  - exact Hne.
Qed.

Lemma rstrip_last (c : ascii) (s : string) :
  last_char (rstrip c s) ≠ Some c.
Proof.
  induction s as [|a s IH]; [discriminate|]. cbn [rstrip].
  destruct (rstrip c s) as [|b t] eqn:E.
  - destruct (Ascii.eqb_spec a c) as [->|Hne]; [discriminate|].
    cbn [last_char]. congruence.
  - exact IH.
Qed.

Lemma lstrip_id (c : ascii) (s : string) :
  first_char s ≠ Some c → lstrip c s = s.
Proof.
  destruct s as [|a s]; [reflexivity|]. cbn [first_char lstrip]. intros Hne.
  destruct (Ascii.eqb_spec a c) as [->|_]; [congruence|reflexivity].
Qed.

Lemma rstrip_id (c : ascii) (s : string) :
  last_char s ≠ Some c → rstrip c s = s.
Proof.
  induction s as [|a s IH]; [reflexivity|]. intros Hne. cbn [rstrip].
  destruct s as [|b t].
  - cbn [rstrip]. cbn [last_char] in Hne.
    destruct (Ascii.eqb_spec a c) as [->|_]; [congruence|reflexivity].
  - rewrite IH by exact Hne. reflexivity.
Qed.

(** X20. The name a [System] is built with has no double quote at either
    end afterwards, and a name without a double quote at either end is
    kept as it is (quotes inside a name are never touched in that case). *)
Theorem new_System_name {F : Type} (nm : string) (cx cy cz : F) :
  first_char (name (new_System nm cx cy cz)) ≠ Some dquote ∧
  last_char (name (new_System nm cx cy cz)) ≠ Some dquote ∧
  (first_char nm ≠ Some dquote → last_char nm ≠ Some dquote →
   name (new_System nm cx cy cz) = nm).
Proof.
  cbn [new_System name]. unfold strip. split; [|split].
  - apply rstrip_first, lstrip_first.
  - apply rstrip_last.
  - intros Hf Hl. rewrite (lstrip_id _ _ Hf). apply rstrip_id, Hl.
Qed.

Section LoadFacts.
Context {F : Type}.
Variable parse_float : string → option F.

Lemma load_row_Some (row : list string) (s : System F) :
  load_row parse_float row = Some s ↔
  ∃ nm sx sy sz rest cx cy cz,
    row = nm :: sx :: sy :: sz :: rest ∧
    parse_float sx = Some cx ∧ parse_float sy = Some cy ∧
    parse_float sz = Some cz ∧ s = new_System nm cx cy cz.
Proof.
  unfold load_row. split.
  - destruct row as [|nm [|sx [|sy [|sz rest]]]];
      cbn [length Nat.leb]; try discriminate.
    destruct (parse_float sx) as [cx|] eqn:Ex; [|discriminate].
    destruct (parse_float sy) as [cy|] eqn:Ey; [|discriminate].
    destruct (parse_float sz) as [cz|] eqn:Ez; [|discriminate].
    cbn [mbind option_bind]. intros [= <-].
    exists nm, sx, sy, sz, rest, cx, cy, cz. auto 6.
  - intros (nm & sx & sy & sz & rest & cx & cy & cz & -> & Ex & Ey & Ez & ->).
    cbn [length Nat.leb]. rewrite Ex, Ey, Ez. reflexivity.
Qed.

(** X21. [load_systems] returns no system when the file does not exist;
    otherwise it keeps the rows in file order, each row with at least 4
    fields whose 2nd, 3rd and 4th field parse as floats giving one system
    (fields after the 4th are ignored), and every other row, a row with
    fewer than 4 fields or with a coordinate that does not parse, being
    skipped without stopping the load. *)
Theorem load_systems_rows (rows1 rows2 : list (list string))
    (row : list string) :
  load_systems parse_float None = [] ∧
  (∀ s, load_row parse_float row = Some s ↔
     ∃ nm sx sy sz rest cx cy cz,
       row = nm :: sx :: sy :: sz :: rest ∧
       parse_float sx = Some cx ∧ parse_float sy = Some cy ∧
       parse_float sz = Some cz ∧ s = new_System nm cx cy cz) ∧
  load_systems parse_float (Some (rows1 ++ row :: rows2))
  = load_systems parse_float (Some rows1)
    ++ match load_row parse_float row with
       | Some s => [s]
       | None => []
       end
    ++ load_systems parse_float (Some rows2) ∧
  (load_row parse_float row = None ↔
   (length row < 4)%nat ∨
   ∃ f, f ∈ take 3 (drop 1 row) ∧ parse_float f = None).
Proof.
  split; [reflexivity|]. split; [intros s; apply load_row_Some|]. split.
  - cbn [load_systems]. rewrite omap_app. cbn [omap list_omap].
    destruct (load_row parse_float row); reflexivity.
  - unfold load_row.
    destruct row as [|nm [|sx [|sy [|sz rest]]]]; cbn [length Nat.leb];
      try (split; [intros _; left; lia|reflexivity]).
    cbn [drop take].
    split.
    + intros Hnone. right.
      destruct (parse_float sx) eqn:Ex;
        [|exists sx; split; [left|exact Ex]].
      destruct (parse_float sy) eqn:Ey;
        [|exists sy; split; [right; left|exact Ey]].
      destruct (parse_float sz) eqn:Ez;
        [|exists sz; split; [right; right; left|exact Ez]].
      discriminate.
    + intros [Hlen|(f & Hf & Hnone)]; [lia|].
      apply elem_of_cons in Hf as [->|Hf]; [rewrite Hnone; reflexivity|].
      apply elem_of_cons in Hf as [->|Hf];
        [rewrite Hnone; destruct (parse_float sx); reflexivity|].
      apply elem_of_cons in Hf as [->|Hf]; [|inversion Hf].
      rewrite Hnone. destruct (parse_float sx), (parse_float sy); reflexivity.
Qed.
End LoadFacts.

(** ** The distance column of [print_route] *)

Section DistanceColumn.
Context {F : Type} {ops : FloatOps F}.
Variable heap : ref → System F.

(** One more system at the end of an open route adds one leg. *)
Lemma total_cost_snoc (rng : F) (p : list ref) (pl a : ref) :
  last p = Some pl →
  total_cost heap (p ++ [a]) rng false
  = add_leg heap rng (total_cost heap p rng false) (pl, a).
Proof.
  intros Hl.
  assert (Hne : (1 ≤ length p)%nat)
    by (destruct p; [discriminate|cbn [length]; lia]).
  unfold total_cost at 1.
  assert (Hlen' : (length (p ++ [a]) <? 2)%nat = false)
    by (apply Nat.ltb_ge; rewrite length_app; cbn [length]; lia).
  rewrite Hlen'.
  replace (length (p ++ [a]) - 1)%nat with (length p)
    by (rewrite length_app; cbn [length]; lia).
  rewrite take_app_length.
  replace (drop 1 (p ++ [a])) with (drop 1 p ++ [a])
    by (rewrite drop_app_le by lia; reflexivity).
  rewrite (zip_legs_snoc p a pl Hl), fold_left_app. cbn [fold_left].
  replace (match last (p ++ [a]) with
           | Some _ | _ => add_leg heap rng
               (fold_left (add_leg heap rng)
                  (zip (take (length p - 1) p) (drop 1 p)) (0, [], f_zero, []))
               (pl, a)
           end)
    with (add_leg heap rng
            (fold_left (add_leg heap rng)
               (zip (take (length p - 1) p) (drop 1 p)) (0, [], f_zero, []))
            (pl, a))
    by (destruct (last (p ++ [a])), (head (p ++ [a])); reflexivity).
  f_equal. unfold total_cost.
  destruct (length p <? 2)%nat eqn:E.
  - apply Nat.ltb_lt in E. replace (length p - 1)%nat with 0%nat by lia.
    reflexivity.
  - destruct (last p), (head p); reflexivity.
Qed.

Lemma route_dist_snoc (rng : F) (p : list ref) (pl a : ref) :
  last p = Some pl →
  route_dist heap rng false (p ++ [a])
  = f_add (route_dist heap rng false p) (distance_to (heap pl) (heap a)).
Proof.
  intros Hl. unfold route_dist. rewrite (total_cost_snoc rng p pl a Hl).
  destruct (total_cost heap p rng false) as [[[tj js] tly] ds]. reflexivity.
Qed.

(** The loop of [print_route] from line [k + 1] on: [cum] is the distance
    of the first [k] systems of the route. *)
Lemma print_fold_cum (rng : F) (path : list ref)
    (es : list (nat * (ref * Z))) (k : nat) (acc : F * list (route_line F)) :
  (∀ idx e, es !! idx = Some e →
     e.1 = S (k + idx) ∧ is_Some (path !! (k + idx)%nat)) →
  acc.1 = route_dist heap rng false (take k path) →
  ∃ lines,
    (fold_left (print_line heap path) es acc).2 = acc.2 ++ lines ∧
    ∀ idx line, lines !! idx = Some line →
      line_cum line = route_dist heap rng false (take (S (k + idx)) path).
Proof.
  revert k acc. induction es as [|e es IH]; intros k acc Hes Hacc.
  - exists []. cbn [fold_left]. rewrite app_nil_r. split; [reflexivity|].
    intros idx line Hl. rewrite lookup_nil in Hl. discriminate.
  - cbn [fold_left].
    destruct (Hes 0%nat e eq_refl) as [Hi [b Hb]].
    rewrite Nat.add_0_r in Hi, Hb.
    destruct acc as [cum out]. destruct e as [i [s j]]. cbn [fst] in Hi, Hacc.
    subst i.
    assert (Hcum : (print_line heap path (cum, out) (S k, (s, j))).1
                   = route_dist heap rng false (take (S k) path)).
    { cbn [print_line fst].
      destruct k as [|k'].
      - cbn [Nat.ltb Nat.leb]. rewrite Hacc.
        unfold route_dist.
        rewrite !total_cost_lt2
          by (rewrite length_take; cbn [length]; lia).
        reflexivity.
      - assert (E : (1 <? S (S k'))%nat = true) by (apply Nat.ltb_lt; lia).
        rewrite E. cbn [Nat.sub]. rewrite Nat.sub_0_r.
        assert (Hk' : is_Some (path !! k'))
          by (apply lookup_lt_is_Some; apply lookup_lt_Some in Hb; lia).
        destruct Hk' as [a Ha]. rewrite Ha, Hb, Hacc.
        rewrite (take_S_r path (S k') b Hb).
        symmetry. apply route_dist_snoc.
        rewrite last_lookup, length_take.
        replace (pred (S k' `min` length path)) with k'
          by (apply lookup_lt_Some in Hb; lia).
        rewrite lookup_take_lt by lia. exact Ha. }
    destruct (IH (S k) (print_line heap path (cum, out) (S k, (s, j))))
      as (lines & E & Hlines).
    { intros idx e He. destruct (Hes (S idx) e He) as [H1 H2].
      rewrite <- Nat.add_succ_comm in H1, H2. split; assumption. }
    { exact Hcum. }
    revert E Hcum. cbn [print_line fst snd]. intros E Hcum.
    rewrite <- app_assoc in E. cbn [app] in E.
    eexists. split; [exact E|].
    intros [|idx] line Hl.
    + injection Hl as <-. cbn [line_cum]. rewrite Nat.add_0_r. exact Hcum.
    + cbn [lookup list_lookup] in Hl. rewrite <- Nat.add_succ_comm.
      exact (Hlines idx line Hl).
Qed.

(** X22. The distance [print_route] shows on a line is the distance
    travelled from the start of the route to the system of that line: on
    line [i] it is the total distance of the first [i] systems of the
    route taken as an open route (0 on the first line), whatever hop list
    is passed. *)
Theorem print_route_distance_column (rng : F) (path : list ref)
    (jumps : list Z) (tj : Z) (tly : F) :
  ∀ idx line,
    (print_route heap path jumps tj tly).1 !! idx = Some line →
    line_cum line = route_dist heap rng false (take (S idx) path).
Proof.
  unfold print_route. cbn [fst].
  destruct (print_fold_cum rng path (enumerate1 (zip path jumps)) 0
              (f_zero, [])) as (lines & -> & Hlines).
  - intros idx [i [s j]] He. rewrite enumerate1_lookup in He.
    destruct (zip path jumps !! idx) as [[s' j']|] eqn:Hz; [|discriminate].
    injection He as <- <- <-.
    apply lookup_zip_with_Some in Hz as (s'' & j'' & E & Hs & Hj).
    cbn [fst Nat.add]. split; [reflexivity|]. eexists. exact Hs.
  - cbn [fst]. unfold route_dist.
    rewrite total_cost_lt2 by (rewrite length_take; lia). reflexivity.
  - cbn [snd app]. intros idx line Hl. exact (Hlines idx line Hl).
Qed.
End DistanceColumn.

(** ** The further properties on concrete routes *)

Lemma NoDup_012 : NoDup [0; 1; 2]%nat.
Proof. apply (bool_decide_unpack _). vm_compute. exact I. Qed.

Lemma nearest_neighbor_visits_once_line4 :
  NoDup (nearest_neighbor line4 insertion_order [0; 1; 2]%nat 0%nat
           (Some 3%nat) 1%Q) ∧
  ∀ s, s ∈ nearest_neighbor line4 insertion_order [0; 1; 2]%nat 0%nat
             (Some 3%nat) 1%Q
       ↔ s = 0%nat ∨ s ∈ [0; 1; 2]%nat ∨ Some 3%nat = Some s.
Proof.
  exact (nearest_neighbor_visits_once line4 insertion_order
           insertion_order_perm [0; 1; 2]%nat 0%nat (Some 3%nat) 1%Q).
Defined.

Lemma two_opt_loop_pins_ends_line5 :
  ∃ r, two_opt line5 [0; 1; 2; 3; 4]%nat 2%Q true = Some r ∧
       take 2 (res_path r) = take 2 [0; 1; 2; 3; 4]%nat ∧
       last (res_path r) = last [0; 1; 2; 3; 4]%nat.
Proof. exact (two_opt_loop_pins_ends line5 [0; 1; 2; 3; 4]%nat 2%Q). Defined.

Lemma two_opt_never_worse_line5 :
  ∃ r, two_opt line5 [0; 1; 2; 3; 4]%nat 2%Q false = Some r ∧
       res_tj r ≤ route_hops line5 2%Q false [0; 1; 2; 3; 4]%nat ∧
       (res_tj r = route_hops line5 2%Q false [0; 1; 2; 3; 4]%nat →
        f_lt (route_dist line5 2%Q false [0; 1; 2; 3; 4]%nat) (res_tly r)
        = false).
Proof. exact (two_opt_never_worse line5 [0; 1; 2; 3; 4]%nat 2%Q false). Defined.

Lemma two_opt_short_unchanged_line3 :
  two_opt line3 [0; 1; 2]%nat 15%Q false
  = Some (with_costs line3 15%Q false [0; 1; 2]%nat).
Proof.
  apply (two_opt_short_unchanged line3 [0; 1; 2]%nat 15%Q false).
  left. simpl. lia.
Defined.

Lemma solve_open_starts_at_first_line4 :
  solve line4 insertion_order [3%nat] 1%Q false true
  = Some ([3%nat], [], 0, f_zero, []) ∧
  ∃ r, solve line4 insertion_order [0; 1; 2; 3]%nat 1%Q false true = Some r ∧
       head (res_path r) = head [0; 1; 2; 3]%nat.
Proof.
  split.
  - apply (proj1 (solve_open_starts_at_first line4 insertion_order [3%nat]
                    1%Q true)).
    simpl. lia.
  - apply (proj2 (solve_open_starts_at_first line4 insertion_order
                    [0; 1; 2; 3]%nat 1%Q true)).
    right. simpl. discriminate.
Defined.

Lemma solve_open_visits_once_line4 :
  ∃ r, solve line4 insertion_order [0; 1; 2; 3]%nat 1%Q false true = Some r ∧
       NoDup (res_path r) ∧
       ∀ s, s ∈ res_path r ↔ s ∈ [0; 1; 2; 3]%nat.
Proof.
  exact (solve_open_visits_once line4 insertion_order insertion_order_perm
           [0; 1; 2; 3]%nat 1%Q true).
Defined.

Lemma solve_loop_tour_line3 :
  ∃ r p, solve line3 insertion_order [0; 1; 2]%nat 15%Q true true = Some r ∧
         head p = Some 0%nat ∧ NoDup p ∧ (∀ s, s ∈ p ↔ s ∈ [0; 1; 2]%nat) ∧
         (res_path r = p ++ [0%nat] ∨ (p = [0%nat] ∧ res_path r = [0%nat])).
Proof.
  apply (solve_loop_tour line3 insertion_order insertion_order_perm
           [0; 1; 2]%nat 15%Q true 0%nat).
  - simpl. lia.
  - reflexivity.
Defined.

Lemma print_route_open_line3 :
  ∃ r, solve line3 insertion_order [0; 1; 2]%nat 15%Q false true = Some r ∧
    let lines :=
      (print_route line3 (res_path r) (res_jumps r) (res_tj r) (res_tly r)).1 in
    length lines = (length (res_path r) - 1)%nat ∧
    ∀ line, line ∈ lines → line_marker line ≠ END_LOOP.
Proof.
  exact (print_route_open line3 insertion_order [0; 1; 2]%nat 15%Q true).
Defined.

Lemma print_route_loop_line3 :
  ∃ r, solve line3 insertion_order [0; 1; 2]%nat 15%Q true true = Some r ∧
    let lines :=
      (print_route line3 (res_path r) (res_jumps r) (res_tj r) (res_tly r)).1 in
    length lines = length (res_path r) ∧
    ∃ pl before closing,
      res_path r !! (length (res_path r) - 2)%nat = Some pl ∧
      lines !! (length lines - 2)%nat = Some before ∧
      last lines = Some closing ∧
      line_marker closing = END_LOOP ∧
      line_name closing = name (line3 0%nat) ∧
      line_name before = name (line3 pl) ∧
      line_jumps closing = jumps_to (line3 pl) (line3 0%nat) 15%Q ∧
      line_jumps closing = line_jumps before.
Proof.
  apply (print_route_loop line3 insertion_order insertion_order_perm
           [0; 1; 2]%nat 15%Q true 0%nat 1%nat).
  - reflexivity.
  - right. left.
  - discriminate.
Defined.

Lemma print_route_systems_visited_line3 :
  ∃ r, solve line3 insertion_order [0; 1; 2]%nat 15%Q true true = Some r ∧
    (print_route line3 (res_path r) (res_jumps r) (res_tj r) (res_tly r)).2.1.1
    = if (length [0; 1; 2]%nat =? 1)%nat then 0%nat
      else length [0; 1; 2]%nat.
Proof.
  exact (print_route_systems_visited line3 insertion_order
           insertion_order_perm [0; 1; 2]%nat 15%Q true true NoDup_012).
Defined.

Lemma print_route_distance_column_line3 :
  line_cum {| line_no := 2; line_name := "B"; line_jumps := 1;
              line_cum := 10%Q; line_marker := NO_MARKER |}
  = route_dist line3 15%Q false (take 2 [0; 1; 2]%nat).
Proof.
  apply (print_route_distance_column line3 15%Q [0; 1; 2]%nat [1; 1] 2 20%Q
           1%nat).
  vm_compute. reflexivity.
Defined.

Lemma save_csv_rows_line3 :
  let rows := save_csv line3 Qround3 [0; 1; 2]%nat [1; 1] [10%Q; 10%Q] 2 20%Q in
  length rows = length [1; 1] ∧
  ∀ idx row, rows !! idx = Some row →
    csv_step row = S idx ∧
    (∃ s, [0; 1; 2]%nat !! idx = Some s ∧ csv_system row = name (line3 s)) ∧
    [1; 1] !! idx = Some (csv_jumps row) ∧
    csv_total_jumps row = fold_left Z.add (take (S idx) [1; 1]) 0 ∧
    csv_total_ly row
      = Qround3 (fold_left f_add (take (S idx) [10%Q; 10%Q]) f_zero).
Proof.
  apply (save_csv_rows line3 Qround3 [0; 1; 2]%nat [1; 1] [10%Q; 10%Q] 2 20%Q).
  - reflexivity.
  - simpl. lia.
Defined.

Lemma save_csv_open_line3 :
  ∃ r, solve line3 insertion_order [0; 1; 2]%nat 15%Q false true = Some r ∧
    let rows :=
      save_csv line3 Qround3 (res_path r) (res_jumps r) (res_dists r)
               (res_tj r) (res_tly r) in
    length rows = (length (res_path r) - 1)%nat ∧
    ∀ row, last rows = Some row →
      csv_total_jumps row = res_tj r ∧ csv_total_ly row = Qround3 (res_tly r).
Proof.
  exact (save_csv_open line3 Qround3 insertion_order [0; 1; 2]%nat 15%Q true).
Defined.

Lemma save_csv_loop_line3 :
  ∃ r, solve line3 insertion_order [0; 1; 2]%nat 15%Q true true = Some r ∧
    let rows :=
      save_csv line3 Qround3 (res_path r) (res_jumps r) (res_dists r)
               (res_tj r) (res_tly r) in
    length rows = length (res_path r) ∧
    ∃ pl row,
      res_path r !! (length (res_path r) - 2)%nat = Some pl ∧
      last rows = Some row ∧
      csv_system row = name (line3 0%nat) ∧
      csv_total_jumps row = res_tj r + jumps_to (line3 pl) (line3 0%nat) 15%Q ∧
      csv_total_ly row
        = Qround3 (f_add (res_tly r) (distance_to (line3 pl) (line3 0%nat))).
Proof.
  apply (save_csv_loop line3 Qround3 insertion_order insertion_order_perm
           [0; 1; 2]%nat 15%Q true 0%nat 1%nat).
  - reflexivity.
  - right. left.
  - discriminate.
Defined.
